(** * Incremental planar Voronoi diagrams (ef.gy/voronoi.h)

    A shallow embedding of [efgy::geometry::voronoi<S,boundingBoxSize>] and of
    its insertion operator [voronoi::operator+], together with the properties
    of the insertion procedure: bootstrap, point location, cell splitting,
    neighbour cascade and the handling of duplicate or unlocated sites.

    The geometric primitives that [voronoi.h] consumes from [ef.gy/geometry.h],
    [ef.gy/euclidian.h] and [ef.gy/set.h] are kept behind two interfaces
    ([Space] and [Kernel]); the insertion procedure is written against them
    exactly as the C++ template is written against [S] and [polygon<S>].

    Two further parts of the library are embedded after the diagram: the
    template recursion of the model factory, [model<Q,d,e,T,func>::set]
    ([Factory]), and the construction of affine translation matrices
    ([Transformation]). *)

From Stdlib Require Import ZArith QArith Qabs Lia.
From stdpp Require Import base option list gmap.

Set Default Proof Using "Type".

(** ** The space [S]: scalars, colours *)

(** [S::scalar] with the arithmetic that [operator+] uses on coordinates,
    [scalar(boundingBoxSize)], the comparison behind [vector::operator==],
    and the colour payload [colour::HSLA<base>::value] with its default
    constructor. *)
Class Space := {
  scalar : Type;
  colourT : Type;
  sadd : scalar -> scalar -> scalar;
  ssub : scalar -> scalar -> scalar;
  sofnat : nat -> scalar;
  seqb : scalar -> scalar -> bool;
  default_colour : colourT
}.

Section Data.
Context `{SP : Space}.

(** [S::vector], two coordinates [v[0]], [v[1]]. *)
Definition vector : Type := (scalar * scalar)%type.

(** Modelled from the spec: [vector::operator+] of [ef.gy/euclidian.h],
    which is not among the sources at hand; vector arithmetic works
    coordinate by coordinate. *)
Definition vadd (a b : vector) : vector := (sadd (fst a) (fst b), sadd (snd a) (snd b)).

(** Modelled from the spec: [vector::operator-], likewise. *)
Definition vsub (a b : vector) : vector := (ssub (fst a) (fst b), ssub (snd a) (snd b)).

(** Modelled from the spec: [vector::operator==], likewise. *)
Definition veqb (a b : vector) : bool := seqb (fst a) (fst b) && seqb (snd a) (snd b).

(** [polygon<S>]: the vertex vector [data] and the [colour] member. *)
Record polygon : Type := Polygon { data : list vector; pcolour : colourT }.

(** [polygon<S>()] *)
Definition empty_polygon : polygon := Polygon [] default_colour.

(** [voronoi::cell] *)
Record cell : Type := Cell { site : vector; area : polygon; colour : colourT }.

(** [cell (pSite, pColour)]: the area is default-constructed. *)
Definition cell_site_colour (pSite : vector) (pColour : colourT) : cell :=
  Cell pSite empty_polygon pColour.

(** [cell (pSite, pArea, pColour)]: the body sets [area.colour = pColour]. *)
Definition cell_site_area_colour (pSite : vector) (pArea : polygon) (pColour : colourT) : cell :=
  Cell pSite (Polygon (data pArea) pColour) pColour.

(** [cell::operator==] compares the sites only. *)
Definition cell_eqb (a b : cell) : bool := veqb (site a) (site b).

(** Modelled from the spec: [math::set<T>::operator+] of [ef.gy/set.h],
    which is not part of the sources at hand. The cell collection keeps one
    cell per site: a cell that compares equal (by [cell::operator==]) to a
    stored one is not added, any other cell is appended to [data]. *)
Definition set_add (s : list cell) (b : cell) : list cell :=
  if existsb (fun x => cell_eqb x b) s then s else s ++ [b].

(** [voronoi]: the single member [cells] (its [data] vector). *)
Record voronoi : Type := Voronoi { cells : list cell }.

(** [voronoi (void)] *)
Definition empty_voronoi : voronoi := Voronoi [].
End Data.

(** ** The geometry kernel consumed by [operator+] *)

(** [line<S>(a,b).midpoint()], [euclidian::getPerpendicular], the
    point-in-polygon test [polygon && vector], the clip [polygon / ngon<S,2>]
    with its three [maybe<polygon>] results, the union [polygon + polygon], and
    the worklist operations [polygon + vector] and [polygon - vector]. *)
Class Kernel `{SP : Space} := {
  midpoint : vector -> vector -> vector;
  getPerpendicular : vector -> vector;
  contains : polygon -> vector -> bool;
  clip : polygon -> vector * vector -> option polygon * option polygon * option polygon;
  punion : polygon -> polygon -> polygon;
  padd : polygon -> vector -> polygon;
  psub : polygon -> vector -> polygon
}.

Section Insertion.
Context `{K : Kernel}.

(** The template parameter [boundingBoxSize]. *)
Variable boundingBoxSize : nat.

(** Modelled from the spec: the conversion of [maybe<polygon<S>>] to
    [polygon<S>] ([ef.gy/maybe.h] is not among the sources at hand); an
    absent remainder is the empty sequence of points. *)
Definition from_maybe (m : option polygon) : polygon := default empty_polygon m.

(** The [ngon<S,2> perpendicularBisector] of lines 147-155 and 210-217. *)
Definition bisector (v u : vector) : vector * vector :=
  let m := midpoint v u in
  let p := getPerpendicular (vsub v u) in
  (vadd m p, vsub m p).

(** The [ngon<S,4> g] of lines 255-267. *)
Definition bounding_square (v : vector) : polygon :=
  let b := sofnat boundingBoxSize in
  Polygon [ (ssub (fst v) b, ssub (snd v) b);
            (sadd (fst v) b, ssub (snd v) b);
            (sadd (fst v) b, sadd (snd v) b);
            (ssub (fst v) b, sadd (snd v) b) ] default_colour.

(** Point location, lines 122-137: the index of the first cell whose area
    contains [v]; [None] when [haveMatch] stays false. *)
Fixpoint locate_from (i : nat) (cs : list cell) (v : vector) : option nat :=
  match cs with
  | [] => None
  | c :: cs' => if contains (area c) v then Some i else locate_from (S i) cs' v
  end.

Definition locate (cs : list cell) (v : vector) : option nat := locate_from 0 cs v.

(** [r.cells.data[k].area = P; r.cells.data[k].area.colour = r.cells.data[k].colour] *)
Definition assign_area (cs : list cell) (k : nat) (P : polygon) : list cell :=
  match cs !! k with
  | Some c => <[k := Cell (site c) (Polygon (data P) (colour c)) (colour c)]> cs
  | None => cs
  end.

(** The variables the cascade of lines 188-248 works on. *)
Record cascade_state : Type := CascadeState {
  st_cells : list cell;
  usedCells : gset nat;
  rC : polygon;
  newCell : polygon
}.

(** The body of the [for k] loop, lines 198-244, for one index [k]. *)
Definition visit (v q : vector) (st : cascade_state) (k : nat) : cascade_state :=
  if decide (k ∈ usedCells st) then st
  else
    match st_cells st !! k with
    | None => st
    | Some ck =>
      let u := site ck in
      let nearestPoly := area ck in
      if contains nearestPoly q then
        let used' := {[k]} ∪ usedCells st in
        match clip nearestPoly (bisector v u) with
        | (Some rD, Some rE, rF) =>
          let '(cs', nc') :=
            if contains rD (site ck) then
              (assign_area (st_cells st) k rD, punion (newCell st) rE)
            else if contains rE (site ck) then
              (assign_area (st_cells st) k rE, punion (newCell st) rD)
            else (st_cells st, newCell st) in
          CascadeState cs' used' (fold_left padd (data (from_maybe rF)) (rC st)) nc'
        | _ => CascadeState (st_cells st) used' (rC st) (newCell st)
        end
      else st
    end.

(** The loop body run over the indices [ks] in turn. *)
Definition visits (v q : vector) (ks : list nat) (st : cascade_state) : cascade_state :=
  fold_left (visit v q) ks st.

(** One pass of [for (k = 0; k < r.cells.data.size(); k++)]. *)
Definition scan (v q : vector) (st : cascade_state) : cascade_state :=
  visits v q (seq 0 (length (st_cells st))) st.

(** One iteration of the [while] body: scan, then [rC = rC - q]. *)
Definition iteration (v q : vector) (st : cascade_state) : cascade_state :=
  let st' := scan v q st in
  CascadeState (st_cells st') (usedCells st') (psub (rC st') q) (newCell st').

(** [while (rC.data.size() > 0)], with [fuel] bounding the number of
    iterations; [None] when the bound is reached before the worklist
    empties. *)
Fixpoint cascade (fuel : nat) (v : vector) (st : cascade_state) : option cascade_state :=
  match data (rC st) with
  | [] => Some st
  | q :: _ =>
    match fuel with
    | O => None
    | S fuel' => cascade fuel' v (iteration v q st)
    end
  end.

(** Lines 188-250 for a split whose retained side is [kept]. *)
Definition split_and_cascade (fuel : nat) (cs : list cell) (v : vector) (col : colourT)
    (nearestCell : nat) (kept other remainder : polygon) : option voronoi :=
  let st0 := CascadeState (assign_area cs nearestCell kept) {[nearestCell]} remainder other in
  st ← cascade fuel v st0;
  Some (Voronoi (set_add (st_cells st) (cell_site_area_colour v (newCell st) col))).

(** [voronoi operator + (const cell &c) const], lines 108-273. *)
Definition insert (fuel : nat) (D : voronoi) (c : cell) : option voronoi :=
  let v := site c in
  let col := colour c in
  match cells D with
  | [] => Some (Voronoi (set_add [] (cell_site_area_colour v (bounding_square v) col)))
  | _ :: _ =>
    match locate (cells D) v with
    | None => Some D
    | Some nearestCell =>
      cn ← cells D !! nearestCell;
      let nearest := site cn in
      match clip (area cn) (bisector v nearest) with
      | (Some rA, Some rB, rd2) =>
        if contains rA nearest then
          split_and_cascade fuel (cells D) v col nearestCell rA rB (from_maybe rd2)
        else if contains rB nearest then
          split_and_cascade fuel (cells D) v col nearestCell rB rA (from_maybe rd2)
        else Some (Voronoi (set_add (cells D) (cell_site_area_colour v rB col)))
      | _ => Some D
      end
    end
  end.

(** The state in which the cascade starts (line 190), when the located
    cell is split and one of the sub-polygons contains its site. *)
Definition cascade_start (D : voronoi) (v : vector) : option cascade_state :=
  nearestCell ← locate (cells D) v;
  cn ← cells D !! nearestCell;
  match clip (area cn) (bisector v (site cn)) with
  | (Some rA, Some rB, rd2) =>
    if contains rA (site cn) then
      Some (CascadeState (assign_area (cells D) nearestCell rA) {[nearestCell]}
                         (from_maybe rd2) rB)
    else if contains rB (site cn) then
      Some (CascadeState (assign_area (cells D) nearestCell rB) {[nearestCell]}
                         (from_maybe rd2) rA)
    else None
  | _ => None
  end.

(** The part of [operator+] that does not see the colour payload: the
    cells after the split and the cascade, and the area of the cell to
    add, if one is to be added. *)
Definition cascade_core (fuel : nat) (cs : list cell) (v : vector)
    (nearestCell : nat) (kept other remainder : polygon) : option (list cell * option polygon) :=
  let st0 := CascadeState (assign_area cs nearestCell kept) {[nearestCell]} remainder other in
  st ← cascade fuel v st0;
  Some (st_cells st, Some (newCell st)).

Definition insert_core (fuel : nat) (D : voronoi) (v : vector)
    : option (list cell * option polygon) :=
  match cells D with
  | [] => Some ([], Some (bounding_square v))
  | _ :: _ =>
    match locate (cells D) v with
    | None => Some (cells D, None)
    | Some nearestCell =>
      cn ← cells D !! nearestCell;
      let nearest := site cn in
      match clip (area cn) (bisector v nearest) with
      | (Some rA, Some rB, rd2) =>
        if contains rA nearest then
          cascade_core fuel (cells D) v nearestCell rA rB (from_maybe rd2)
        else if contains rB nearest then
          cascade_core fuel (cells D) v nearestCell rB rA (from_maybe rd2)
        else Some (cells D, Some rB)
      | _ => Some (cells D, None)
      end
    end
  end.

(** [voronoi operator + (const vector &v) const], lines 103-106. *)
Definition insert_site (fuel : nat) (D : voronoi) (v : vector) : option voronoi :=
  insert fuel D (cell_site_colour v default_colour).

(** A sequence of insertions [((empty + c1) + c2) + ...]. *)
Fixpoint insert_all (fuel : nat) (D : voronoi) (cs : list cell) : option voronoi :=
  match cs with
  | [] => Some D
  | c :: cs' => D' ← insert fuel D c; insert_all fuel D' cs'
  end.

(** *** Vocabulary for the properties *)

(** The cells that one iteration of the cascade marks used. *)
Definition newly_used (v q : vector) (st : cascade_state) : gset nat :=
  usedCells (iteration v q st) ∖ usedCells st.

(** The number of cells not yet marked used. *)
Definition unused (st : cascade_state) : nat :=
  size (set_seq 0 (length (st_cells st)) ∖ usedCells st : gset nat).

(** Some stored cell has site [v] (by [vector::operator==]). *)
Definition has_site (cs : list cell) (v : vector) : bool :=
  existsb (fun x => veqb (site x) v) cs.

(** The located cell is clipped into two sub-polygons, line 161. *)
Definition splits (cs : list cell) (v : vector) : bool :=
  match locate cs v with
  | None => false
  | Some nearestCell =>
    match cs !! nearestCell with
    | None => false
    | Some cn =>
      match clip (area cn) (bisector v (site cn)) with
      | (Some _, Some _, _) => true
      | _ => false
      end
    end
  end.

(** The insertions that add a cell: the first one, and every later one
    whose site is located in a cell that the bisector clips in two and
    whose site is not stored yet. *)
Definition effective (D : voronoi) (v : vector) : bool :=
  match cells D with
  | [] => true
  | _ :: _ => splits (cells D) v && negb (has_site (cells D) v)
  end.

Fixpoint effective_count (fuel : nat) (D : voronoi) (cs : list cell) : nat :=
  match cs with
  | [] => 0
  | c :: cs' =>
    (if effective D (site c) then 1 else 0) +
    match insert fuel D c with
    | Some D' => effective_count fuel D' cs'
    | None => 0
    end
  end.

(** The degenerate split of lines 181-185: two sub-polygons, neither of
    which contains the site of the located cell. *)
Definition degenerate_split (D : voronoi) (v : vector) : bool :=
  match locate (cells D) v with
  | None => false
  | Some nearestCell =>
    match cells D !! nearestCell with
    | None => false
    | Some cn =>
      match clip (area cn) (bisector v (site cn)) with
      | (Some rA, Some rB, _) =>
        negb (contains rA (site cn)) && negb (contains rB (site cn))
      | _ => false
      end
    end
  end.

(** The insertion procedure as section 4.3 of the specification words its
    fallback: on a degenerate split the procedure is entered again with the
    cell built from [v] and the second sub-polygon. [depth] bounds the
    number of re-entries; [None] when it is used up. Everything else is
    [insert]. *)
Fixpoint insert_reentrant (depth fuel : nat) (D : voronoi) (c : cell) : option voronoi :=
  let v := site c in
  let col := colour c in
  match cells D with
  | [] => Some (Voronoi (set_add [] (cell_site_area_colour v (bounding_square v) col)))
  | _ :: _ =>
    match locate (cells D) v with
    | None => Some D
    | Some nearestCell =>
      cn ← cells D !! nearestCell;
      let nearest := site cn in
      match clip (area cn) (bisector v nearest) with
      | (Some rA, Some rB, rd2) =>
        if contains rA nearest then
          split_and_cascade fuel (cells D) v col nearestCell rA rB (from_maybe rd2)
        else if contains rB nearest then
          split_and_cascade fuel (cells D) v col nearestCell rB rA (from_maybe rd2)
        else
          match depth with
          | O => None
          | S depth' => insert_reentrant depth' fuel D (cell_site_area_colour v rB col)
          end
      | _ => Some D
      end
    end
  end.

(** *** Vocabulary for the invariants *)

(** The cell [c] after [c.area = P; c.area.colour = c.colour]. *)
Definition with_area (c : cell) (P : polygon) : cell :=
  Cell (site c) (Polygon (data P) (colour c)) (colour c).

(** What a stored cell [c] becomes when it is clipped against the bisector
    of the new site [v] and its own site (lines 161-180 and 220-237): the
    first of the two sub-polygons that contains its site. *)
Definition retained (v : vector) (c : cell) : option cell :=
  match clip (area c) (bisector v (site c)) with
  | (Some rA, Some rB, _) =>
    if contains rA (site c) then Some (with_area c rA)
    else if contains rB (site c) then Some (with_area c rB)
    else None
  | _ => None
  end.

(** The sub-polygon that the clipped cell gives to the new cell. *)
Definition ceded (v : vector) (c : cell) : option polygon :=
  match clip (area c) (bisector v (site c)) with
  | (Some rA, Some rB, _) =>
    if contains rA (site c) then Some rB
    else if contains rB (site c) then Some rA
    else None
  | _ => None
  end.

(** The points that the visit of the cell [c] puts on the worklist (lines
    239-242): those of the third clip result, when the clip gives two
    sub-polygons. *)
Definition queued (v : vector) (c : cell) : list vector :=
  match clip (area c) (bisector v (site c)) with
  | (Some _, Some _, rF) => data (from_maybe rF)
  | _ => []
  end.

(** The cell [c] after the clip of lines 219-237: with the retained
    sub-polygon as its area, or as it was when nothing is assigned. *)
Definition clipped (v : vector) (c : cell) : cell := default c (retained v c).

(** The tests of lines 198 and 206 for the index [k] in the state [st]:
    the cell is not marked used and its area contains [q]. *)
Definition hit (q : vector) (st : cascade_state) (k : nat) : bool :=
  bool_decide (k ∉ usedCells st) &&
  match st_cells st !! k with
  | Some ck => contains (area ck) q
  | None => false
  end.

(** The indices of the cells that are unused and contain [q] when an
    iteration begins, in the order of the [for k] loop. *)
Definition marked_by (q : vector) (st : cascade_state) : list nat :=
  filter (fun k => hit q st k = true) (seq 0 (length (st_cells st))).

(** The cells that the cascade marks, in the order in which it marks
    them: iteration after iteration, and within one iteration in the order
    of the [for k] loop. *)
Fixpoint cascade_marks (fuel : nat) (v : vector) (st : cascade_state) : list nat :=
  match data (rC st) with
  | [] => []
  | q :: _ =>
    match fuel with
    | O => []
    | S fuel' => marked_by q st ++ cascade_marks fuel' v (iteration v q st)
    end
  end.

(** The area of the cell carries the cell's colour. *)
Definition coloured (c : cell) : Prop := pcolour (area c) = colour c.

(** No cell compares equal (by [cell::operator==]) to a later one. *)
Fixpoint distinct_sites (cs : list cell) : bool :=
  match cs with
  | [] => true
  | c :: cs' => negb (existsb (fun x => veqb (site c) (site x)) cs') && distinct_sites cs'
  end.

(** What the cascade keeps true of its state, for the cells [orig] and the
    marks [used0] it started from and the area [nc0] the new cell started
    with: unmarked cells are as they were; every cell is as it was or is its
    original clipped once; the new cell's area is [nc0] united with what
    the cells marked since then have ceded, each of them once. *)
Definition cascade_inv (v : vector) (orig : list cell) (used0 : gset nat) (nc0 : polygon)
    (st : cascade_state) : Prop :=
  used0 ⊆ usedCells st ∧
  (∀ j, j ∉ usedCells st → st_cells st !! j = orig !! j) ∧
  (∀ j cj, orig !! j = Some cj →
     st_cells st !! j = Some cj ∨
     ∃ cj', retained v cj = Some cj' ∧ st_cells st !! j = Some cj') ∧
  (∃ ks, NoDup ks ∧
         (∀ k, k ∈ ks ↔ k ∈ usedCells st ∧ k ∉ used0) ∧
         newCell st = fold_left punion (omap (fun k => orig !! k ≫= ceded v) ks) nc0).
End Insertion.

(** ** A rational instance of the collaborators *)

(** Exact rational coordinates, in lowest terms so that equal points are
    equal terms. Polygons are convex and are given by their vertex set. *)
Module Rational.

Definition qadd (a b : Q) : Q := Qred (a + b).
Definition qsub (a b : Q) : Q := Qred (a - b).
Definition qmul (a b : Q) : Q := Qred (a * b).
Definition qdiv (a b : Q) : Q := Qred (a / b).
Definition qpos (a : Q) : bool := negb (Qle_bool a 0).
Definition qneg (a : Q) : bool := negb (Qle_bool 0 a).

#[export] Instance QSpace : Space := {|
  scalar := Q;
  colourT := nat;
  sadd := qadd;
  ssub := qsub;
  sofnat := fun n => inject_Z (Z.of_nat n);
  seqb := Qeq_bool;
  default_colour := 0%nat
|}.

Definition point : Type := (Q * Q)%type.

(** The cross product of [a - o] and [b - o]: positive when [b] lies to the
    left of the directed line from [o] to [a]. *)
Definition cross (o a b : point) : Q :=
  qsub (qmul (qsub (fst a) (fst o)) (qsub (snd b) (snd o)))
       (qmul (qsub (snd a) (snd o)) (qsub (fst b) (fst o))).

Definition point_eqb (a b : point) : bool :=
  Qeq_bool (fst a) (fst b) && Qeq_bool (snd a) (snd b).

Definition mem (x : point) (l : list point) : bool := existsb (point_eqb x) l.

Definition add_point (l : list point) (x : point) : list point :=
  if mem x l then l else l ++ [x].

(** [p q] is a boundary edge of the convex hull of [l], with the hull on its
    left. *)
Definition supporting (l : list point) (p q : point) : bool :=
  negb (point_eqb p q) && forallb (fun x => Qle_bool 0 (cross p q x)) l.

Definition pairs (l : list point) : list (point * point) :=
  flat_map (fun p => map (fun q => (p, q)) l) l.

Definition has_area (l : list point) : bool :=
  existsb (fun pq => existsb (fun x => qpos (cross (fst pq) (snd pq) x)) l) (pairs l).

(** Modelled from the spec: the point-in-convex-polygon test
    [polygon && vector] of [ef.gy/geometry.h], absent from the sources at
    hand; boundary points are inside (inclusive rule, used everywhere). *)
Definition q_contains (P : polygon) (v : point) : bool :=
  has_area (data P) &&
  forallb (fun pq => implb (supporting (data P) (fst pq) (snd pq))
                           (Qle_bool 0 (cross (fst pq) (snd pq) v)))
          (pairs (data P)).

(** Where the line through [a] and [b] meets the segment from [p] to [q],
    when [p] and [q] lie strictly on opposite sides. *)
Definition crossing (a b p q : point) : point :=
  let sp := cross a b p in
  let sq := cross a b q in
  let t := qdiv sp (qsub sp sq) in
  (qadd (fst p) (qmul t (qsub (fst q) (fst p))),
   qadd (snd p) (qmul t (qsub (snd q) (snd p)))).

(** The points in which the line through [a] and [b] meets the boundary:
    vertices on the line, and crossings of boundary edges. *)
Definition boundary_points (l : list point) (a b : point) : list point :=
  let on_line := filter (fun x => Qeq_bool (cross a b x) 0 = true) l in
  let cut := filter (fun pq =>
                (supporting l (fst pq) (snd pq) &&
                 (qpos (cross a b (fst pq)) && qneg (cross a b (snd pq)) ||
                  qneg (cross a b (fst pq)) && qpos (cross a b (snd pq)))) = true) (pairs l) in
  fold_left add_point (map (fun pq => crossing a b (fst pq) (snd pq)) cut)
            (fold_left add_point on_line []).

(** Modelled from the spec: the half-plane clip [polygon / ngon<S,2>] of
    [ef.gy/geometry.h], absent from the sources at hand. The polygon is split
    by the line through the two given points into the convex pieces on
    either side; a side with zero area gives an empty result, and the
    boundary points on the line are returned as the remainder. *)
Definition q_clip (P : polygon) (ab : point * point)
    : option polygon * option polygon * option polygon :=
  let '(a, b) := ab in
  let l := data P in
  let I := boundary_points l a b in
  let side (keep : Q -> bool) :=
    if existsb (fun x => keep (cross a b x)) l
    then Some (Polygon (fold_left add_point I (filter (fun x => keep (cross a b x) = true) l))
                       (pcolour P))
    else None in
  (side qpos, side qneg, Some (Polygon I (pcolour P))).

(** Modelled from the spec: [line<S>::midpoint], absent from the sources
    at hand. *)
Definition q_midpoint (a b : point) : point :=
  (qdiv (qadd (fst a) (fst b)) 2, qdiv (qadd (snd a) (snd b)) 2).

(** Modelled from the spec: [euclidian::getPerpendicular], absent from the
    sources at hand; the quarter turn of [d]. *)
Definition q_perpendicular (d : point) : point := (qsub 0 (snd d), fst d).

(** Modelled from the spec: [polygon + vector], absent from the sources at
    hand; it appends a boundary point to the worklist. *)
Definition q_padd (P : polygon) (x : point) : polygon :=
  Polygon (add_point (data P) x) (pcolour P).

(** Modelled from the spec: [polygon - vector], absent from the sources at
    hand; it removes the popped point from the worklist. *)
Definition q_psub (P : polygon) (x : point) : polygon :=
  Polygon (filter (fun y => point_eqb x y = false) (data P)) (pcolour P).

(** Modelled from the spec: [polygon + polygon], the union of the new
    cell's area with a further piece. *)
Definition q_punion (P R : polygon) : polygon :=
  Polygon (fold_left add_point (data R) (data P)) (pcolour P).

#[export] Instance QKernel : Kernel := {|
  midpoint := q_midpoint;
  getPerpendicular := q_perpendicular;
  contains := q_contains;
  clip := q_clip;
  punion := q_punion;
  padd := q_padd;
  psub := q_psub
|}.

Definition pt (x y : Z) : point := (inject_Z x, inject_Z y).

End Rational.


(** ** Concrete diagrams over the rationals *)

Module Examples.
Import Rational.

(** The square with corners (+-1000, +-1000). *)
Definition origin_corners : list point :=
  [pt (-1000) (-1000); pt 1000 (-1000); pt 1000 1000; pt (-1000) 1000].

Definition origin_square (col : nat) : polygon := Polygon origin_corners col.

(** A bare site as [operator + (const vector &)] turns it into a cell. *)
Definition bare (x y : Z) : cell := cell_site_colour (pt x y) default_colour.

(** Both coordinates are within the half-width [b] of the origin. *)
Definition within_half_width (b : nat) (v : point) : bool :=
  Qle_bool (Qabs (fst v)) (inject_Z (Z.of_nat b)) &&
  Qle_bool (Qabs (snd v)) (inject_Z (Z.of_nat b)).

(** The successful insertions as the specification counts them: the site
    is within the half-width and was not inserted before. *)
Fixpoint successful_count (b : nat) (seen vs : list point) : nat :=
  match vs with
  | [] => 0
  | v :: vs' =>
    (if within_half_width b v && negb (mem v seen) then 1 else 0)%nat +
    successful_count b (v :: seen) vs'
  end.

(** Three sites; their cells meet in the point (50, 50). *)
Definition three_sites : list cell := [bare 0 0; bare 100 0; bare 0 100].

(** The cell of the site (0, 0) with the whole square as its area. *)
Definition origin_cell : cell := Cell (pt 0 0) (origin_square 0) 0%nat.

(** The diagram after the first insertion of the site (0, 0). *)
Definition first_cell : voronoi := Voronoi [origin_cell].

(** The diagram of [three_sites]. *)
Definition three_cells : voronoi :=
  Eval vm_compute in default empty_voronoi (insert_all 1000 8 empty_voronoi three_sites).

(** The state in which the cascade starts when (100, 100) is inserted into
    [three_cells]: the cell of (100, 0) has been split along y = 50. *)
Definition junction_state : cascade_state :=
  CascadeState
    (assign_area (cells three_cells) 1
       (Polygon [pt 1000 (-1000); pt 50 (-1000); pt 50 50; pt 1000 50] 0%nat))
    {[1%nat]}
    (Polygon [pt 50 50; pt 1000 50] 0%nat)
    (Polygon [pt 1000 1000; pt 50 50; pt 1000 50] 0%nat).

(** One cell whose site lies outside its own area, as a caller can store it
    through the public member [cells]. *)
Definition stray_site : voronoi :=
  Voronoi [Cell (pt 1500 0) (origin_square 0) 0%nat].

(** Three sites on a line, the third one on the common edge x = 50 of the
    cells of the first two. *)
Definition line_sites : list cell := [bare 0 0; bare 100 0; bare 50 0].

(** The diagram of [line_sites]. *)
Definition line_cells : voronoi :=
  Eval vm_compute in default empty_voronoi (insert_all 1000 8 empty_voronoi line_sites).
End Examples.

(** * The model factory (ef.gy/factory.h) *)

(** [geometry::model<Q,d,e,T,func>::set]: the compile-time recursion over the
    model depth [d] and the render depth [e] that runs the functor [func] for
    the requested dimensions. *)
Module Factory.
Section Model.

(** The dimensional constraints of the model template [T], as the
    instantiation [T<Q,d,render::null<Q,e>,e>] exports them; [0] as a
    maximum means no constraint. *)
Variables modelDimensionMinimum modelDimensionMaximum : nat -> nat -> nat.
Variables renderDimensionMinimum renderDimensionMaximum : nat -> nat -> nat.

(** The value [set] returns, and the pairs [(d, e)] for which the functor
    was run on [arg], in order; [None] where the template cannot be
    instantiated. *)
Definition outcome : Type := option (bool * list (nat * nat)).

Definition ret (b : bool) : outcome := Some (b, []).

(** The functor calls [log] followed by the call [r]. *)
Definition after (log : list (nat * nat)) (r : outcome) : outcome :=
  match r with
  | Some (b, l) => Some (b, log ++ l)
  | None => None
  end.

(** [(void) a; return b;] *)
Definition discard_then (a b : outcome) : outcome :=
  match a with
  | Some (_, la) => after la b
  | None => None
  end.

(** The body of the primary template, lines 70-140, at depths [d] and [e];
    [down_d] is [model<Q,d-1,e,T,func>::set (dims, rdims, arg)] and [down_e]
    is [model<Q,d,e-1,T,func>::set (dims, rdims, arg)]. *)
Definition set_body (d e dims rdims : nat) (down_d down_e : outcome) : outcome :=
  if d <? modelDimensionMinimum d e then ret (dims =? 0)
  else if (0 <? modelDimensionMaximum d e) && (modelDimensionMaximum d e <? d) then down_d
  else if e <? renderDimensionMinimum d e then ret (rdims =? 0)
  else if (0 <? renderDimensionMaximum d e) && (renderDimensionMaximum d e <? e) then down_e
  else if rdims =? 0 then
    if dims =? 0 then after [(d, e)] (discard_then down_e down_d)
    else if d =? dims then after [(d, e)] down_e
    else if d <? dims then ret (dims =? 0)
    else down_d
  else if e =? rdims then
    if dims =? 0 then after [(d, e)] down_d
    else if d =? dims then after [(d, e)] down_e
    else if d <? dims then ret (dims =? 0)
    else down_d
  else if e <? rdims then ret (rdims =? 0)
  else down_e.

(** [model<Q,d,e,T,func>::set]. The specialisation for [e = 2] returns
    [rdims == 0], the one for [d = 1] returns [dims == 0]; for [d = 1] and
    [e = 2] the two are ambiguous, and the primary template at [d = 0] or
    [e < 2] would need a depth below zero, so that there is no such
    instance. *)
Fixpoint set (d : nat) : nat -> nat -> nat -> outcome :=
  match d with
  | O => fun e dims rdims => if e =? 2 then ret (rdims =? 0) else None
  | S d' =>
    fix set_e (e : nat) : nat -> nat -> outcome :=
      match e with
      | O => fun dims rdims => if d' =? 0 then ret (dims =? 0) else None
      | S e' => fun dims rdims =>
        if d' =? 0 then (if e' =? 1 then None else ret (dims =? 0))
        else if e' =? 1 then ret (rdims =? 0)
        else if e' =? 0 then None
        else set_body (S d') (S e') dims rdims (set d' (S e') dims rdims) (set_e e' dims rdims)
      end
  end.
End Model.
End Factory.

(** * Transformation matrices (ef.gy/transformation.h) *)

(** The constructors of [transformation::affine] and
    [transformation::translation] over a base type [Q] with its [0] and [1]. *)
Module Transformation.
Section Matrices.
Variable Q : Type.
Variables zero one : Q.

(** [math::matrix<Q,n,m>::data], read as [data[i][j]]. *)
Definition matrix : Type := nat -> nat -> Q.

(** [M.data[i][j] = x] *)
Definition assign (M : matrix) (i j : nat) (x : Q) : matrix :=
  fun i' j' => if (i' =? i) && (j' =? j) then x else M i' j'.

(** [for (i = 0; i <= d; i++) for (j = 0; j <= d; j++) data[i][j] = entry i j] *)
Definition fill (d : nat) (entry : nat -> nat -> Q) (M : matrix) : matrix :=
  fold_left (fun M i => fold_left (fun M j => assign M i j (entry i j)) (seq 0 (S d)) M)
            (seq 0 (S d)) M.

(** [affine ()], lines 112-121: the identity, written over whatever the
    storage [M0] held. *)
Definition affine (d : nat) (M0 : matrix) : matrix :=
  fill d (fun i j => if i =? j then one else zero) M0.

(** [translation::updateMatrix], lines 322-348. *)
Definition updateMatrix (d : nat) (from : nat -> Q) (M : matrix) : matrix :=
  if d =? 3 then
    assign (assign (assign M 3 0 (from 0)) 3 1 (from 1)) 3 2 (from 2)
  else
    fill d (fun i j => if (i =? d) && (j <? d) then from j
                       else if i =? j then one else zero) M.

(** [translation (pFrom)], lines 316-320: the base constructor [affine ()]
    runs first, then [updateMatrix ()]. *)
Definition translation (d : nat) (from : nat -> Q) (M0 : matrix) : matrix :=
  updateMatrix d from (affine d M0).
End Matrices.
End Transformation.

(** * Properties of the insertion procedure *)

Section Properties.
Context `{K : Kernel}.
Variable boundingBoxSize : nat.

Implicit Types (D : voronoi) (c : cell) (v q u : vector) (cs : list cell)
               (st : cascade_state) (k i : nat) (P : polygon).

(** ** The cell collection *)

Lemma set_add_cases cs c :
  (has_site cs (site c) = true ∧ set_add cs c = cs) ∨
  (has_site cs (site c) = false ∧ set_add cs c = cs ++ [c]).
Proof.
  unfold set_add, has_site, cell_eqb.
  destruct (existsb _ cs); [left | right]; done.
Qed.

Lemma set_add_length cs c :
  length (set_add cs c) = length cs + (if has_site cs (site c) then 0 else 1).
Proof.
  destruct (set_add_cases cs c) as [[-> ->] | [-> ->]].
  - lia.
  - rewrite length_app. simpl. lia.
Qed.

Lemma has_site_map cs cs' v :
  map site cs = map site cs' → has_site cs v = has_site cs' v.
Proof.
  unfold has_site. revert cs'.
  induction cs as [| x cs IH]; intros [| y cs'] Hm; simpl in *; try done.
  injection Hm as -> Hm. by rewrite (IH _ Hm).
Qed.

(** ** Point location *)

Lemma locate_from_Some cs v i n :
  locate_from i cs v = Some n →
  ∃ c, i ≤ n ∧ cs !! (n - i) = Some c ∧ contains (area c) v = true.
Proof.
  revert i. induction cs as [| x cs IH]; intros i H; simpl in H; [done |].
  destruct (contains (area x) v) eqn:E.
  - injection H as <-. exists x. replace (i - i) with 0 by lia. done.
  - destruct (IH _ H) as (c & Hle & Hl & Hc). exists c.
    split; [lia |]. split; [| done].
    replace (n - i) with (S (n - S i)) by lia. done.
Qed.

Lemma locate_Some cs v n :
  locate cs v = Some n → ∃ c, cs !! n = Some c ∧ contains (area c) v = true.
Proof.
  intros H. destruct (locate_from_Some _ _ _ _ H) as (c & _ & Hl & Hc).
  rewrite Nat.sub_0_r in Hl. eauto.
Qed.

Lemma locate_from_None cs v i :
  (∀ c, c ∈ cs → contains (area c) v = false) → locate_from i cs v = None.
Proof.
  revert i. induction cs as [| x cs IH]; intros i H; simpl; [done |].
  rewrite (H x); [| apply list_elem_of_here].
  apply IH. intros c Hc. apply H. by apply list_elem_of_further.
Qed.

(** ** Assigning an area keeps the cell's identity *)

Lemma assign_area_length cs k P : length (assign_area cs k P) = length cs.
Proof. unfold assign_area. destruct (cs !! k); [apply length_insert | done]. Qed.

Lemma assign_area_lookup_ne cs k j P :
  j ≠ k → assign_area cs k P !! j = cs !! j.
Proof.
  intros Hne. unfold assign_area. destruct (cs !! k); [| done].
  apply list_lookup_insert_ne. congruence.
Qed.

Lemma assign_area_lookup cs k P ck :
  cs !! k = Some ck →
  assign_area cs k P !! k = Some (Cell (site ck) (Polygon (data P) (colour ck)) (colour ck)).
Proof.
  intros H. unfold assign_area. rewrite H.
  apply list_lookup_insert_eq. by eapply lookup_lt_Some.
Qed.

Lemma map_insert_same {A B} (f : A → B) (l : list A) k x y :
  l !! k = Some x → f y = f x → map f (<[k:=y]> l) = map f l.
Proof.
  revert k. induction l as [| a l IH]; intros [| k] H E; simpl in *; try done.
  - injection H as ->. by rewrite E.
  - by rewrite IH.
Qed.

Lemma assign_area_sites cs k P : map site (assign_area cs k P) = map site cs.
Proof.
  unfold assign_area. destruct (cs !! k) eqn:E; [| done].
  by eapply map_insert_same.
Qed.

Lemma assign_area_colours cs k P : map colour (assign_area cs k P) = map colour cs.
Proof.
  unfold assign_area. destruct (cs !! k) eqn:E; [| done].
  by eapply map_insert_same.
Qed.

(** ** One visit of the scan *)

(** A visit either leaves the state alone or marks [k] used. *)
Lemma visit_cases v q st k :
  visit v q st k = st ∨
  ((k ∉ usedCells st) ∧
   (∃ ck, st_cells st !! k = Some ck ∧ contains (area ck) q = true) ∧
   usedCells (visit v q st k) = {[k]} ∪ usedCells st).
Proof.
  unfold visit. destruct (decide (k ∈ usedCells st)) as [Hin | Hnin]; [by left |].
  destruct (st_cells st !! k) as [ck |] eqn:Hk; [| by left].
  destruct (contains (area ck) q) eqn:Hq; [| by left].
  right. split; [done |]. split; [by exists ck |].
  destruct (clip (area ck) (bisector v (site ck))) as [[[rD |] [rE |]] rF]; simpl; try done.
  destruct (contains rD (site ck)); [done |].
  destruct (contains rE (site ck)); done.
Qed.

Lemma visit_skip v q st k :
  (∀ ck, st_cells st !! k = Some ck → contains (area ck) q = false) →
  visit v q st k = st.
Proof.
  intros H. unfold visit. destruct (decide _); [done |].
  destruct (st_cells st !! k) as [ck |] eqn:Hk; [| done].
  by rewrite (H ck).
Qed.

Lemma visit_marks v q st k ck :
  k ∉ usedCells st → st_cells st !! k = Some ck → contains (area ck) q = true →
  usedCells (visit v q st k) = {[k]} ∪ usedCells st.
Proof.
  intros Hn Hk Hq. unfold visit. destruct (decide _); [done |].
  rewrite Hk, Hq.
  destruct (clip (area ck) (bisector v (site ck))) as [[[rD |] [rE |]] rF]; simpl; try done.
  destruct (contains rD (site ck)); [done |].
  destruct (contains rE (site ck)); done.
Qed.

Lemma visit_used_mono v q st k : usedCells st ⊆ usedCells (visit v q st k).
Proof.
  destruct (visit_cases v q st k) as [-> | (_ & _ & ->)]; [done |].
  apply union_subseteq_r.
Qed.

Lemma visit_unchanged v q st k :
  usedCells (visit v q st k) = usedCells st → visit v q st k = st.
Proof.
  intros E. destruct (visit_cases v q st k) as [-> | (Hn & _ & E')]; [done |].
  exfalso. apply Hn. rewrite <- E, E'. apply elem_of_union_l. by apply elem_of_singleton.
Qed.

Lemma visit_length v q st k : length (st_cells (visit v q st k)) = length (st_cells st).
Proof.
  unfold visit. destruct (decide _); [done |].
  destruct (st_cells st !! k) as [ck |]; [| done].
  destruct (contains (area ck) q); [| done].
  destruct (clip _ _) as [[[rD |] [rE |]] rF]; simpl; try done.
  destruct (contains rD (site ck)); simpl; [apply assign_area_length |].
  destruct (contains rE (site ck)); simpl; [apply assign_area_length | done].
Qed.

Lemma visit_sites v q st k : map site (st_cells (visit v q st k)) = map site (st_cells st).
Proof.
  unfold visit. destruct (decide _); [done |].
  destruct (st_cells st !! k) as [ck |]; [| done].
  destruct (contains (area ck) q); [| done].
  destruct (clip _ _) as [[[rD |] [rE |]] rF]; simpl; try done.
  destruct (contains rD (site ck)); simpl; [apply assign_area_sites |].
  destruct (contains rE (site ck)); simpl; [apply assign_area_sites | done].
Qed.

Lemma visit_colours v q st k :
  map colour (st_cells (visit v q st k)) = map colour (st_cells st).
Proof.
  unfold visit. destruct (decide _); [done |].
  destruct (st_cells st !! k) as [ck |]; [| done].
  destruct (contains (area ck) q); [| done].
  destruct (clip _ _) as [[[rD |] [rE |]] rF]; simpl; try done.
  destruct (contains rD (site ck)); simpl; [apply assign_area_colours |].
  destruct (contains rE (site ck)); simpl; [apply assign_area_colours | done].
Qed.

(** Only the visited cell can change. *)
Lemma visit_lookup_ne v q st k j :
  j ≠ k → st_cells (visit v q st k) !! j = st_cells st !! j.
Proof.
  intros Hne. unfold visit. destruct (decide _); [done |].
  destruct (st_cells st !! k) as [ck |]; [| done].
  destruct (contains (area ck) q); [| done].
  destruct (clip _ _) as [[[rD |] [rE |]] rF]; simpl; try done.
  destruct (contains rD (site ck)); simpl; [by apply assign_area_lookup_ne |].
  destruct (contains rE (site ck)); simpl; [by apply assign_area_lookup_ne | done].
Qed.

(** A used cell is skipped. *)
Lemma visit_used_skip v q st k : k ∈ usedCells st → visit v q st k = st.
Proof. intros H. unfold visit. by destruct (decide _). Qed.

Lemma visit_lookup_used v q st k j :
  j ∈ usedCells st → st_cells (visit v q st k) !! j = st_cells st !! j.
Proof.
  intros Hj. destruct (decide (j = k)) as [-> | Hne].
  - by rewrite visit_used_skip.
  - by apply visit_lookup_ne.
Qed.

(** ** The scan over all cells *)

Lemma visits_cons v q k ks st :
  visits v q (k :: ks) st = visits v q ks (visit v q st k).
Proof. done. Qed.

Lemma visits_length v q ks st :
  length (st_cells (visits v q ks st)) = length (st_cells st).
Proof.
  revert st. induction ks as [| k ks IH]; intros st; [done |].
  by rewrite visits_cons, IH, visit_length.
Qed.

Lemma visits_sites v q ks st :
  map site (st_cells (visits v q ks st)) = map site (st_cells st).
Proof.
  revert st. induction ks as [| k ks IH]; intros st; [done |].
  by rewrite visits_cons, IH, visit_sites.
Qed.

Lemma visits_colours v q ks st :
  map colour (st_cells (visits v q ks st)) = map colour (st_cells st).
Proof.
  revert st. induction ks as [| k ks IH]; intros st; [done |].
  by rewrite visits_cons, IH, visit_colours.
Qed.

Lemma visits_used_mono v q ks st : usedCells st ⊆ usedCells (visits v q ks st).
Proof.
  revert st. induction ks as [| k ks IH]; intros st; [done |].
  rewrite visits_cons. etrans; [apply (visit_used_mono v q st k) | apply IH].
Qed.

Lemma visits_used_bound v q ks st :
  usedCells (visits v q ks st) ⊆ usedCells st ∪ list_to_set ks.
Proof.
  revert st. induction ks as [| k ks IH]; intros st; [by apply union_subseteq_l |].
  rewrite visits_cons. etrans; [apply IH |].
  intros j Hj. apply elem_of_union in Hj as [Hj | Hj].
  - destruct (visit_cases v q st k) as [E | (_ & _ & E)]; rewrite E in Hj.
    + by apply elem_of_union_l.
    + apply elem_of_union in Hj as [Hj | Hj]; [| by apply elem_of_union_l].
      apply elem_of_union_r, elem_of_list_to_set.
      apply elem_of_singleton in Hj as ->. apply list_elem_of_here.
  - apply elem_of_union_r, elem_of_list_to_set, list_elem_of_further.
    by apply elem_of_list_to_set in Hj.
Qed.

Lemma visits_lookup_used v q ks st j :
  j ∈ usedCells st → st_cells (visits v q ks st) !! j = st_cells st !! j.
Proof.
  revert st. induction ks as [| k ks IH]; intros st Hj; [done |].
  rewrite visits_cons, IH.
  - by apply visit_lookup_used.
  - by apply visit_used_mono.
Qed.

Lemma visits_lookup_notin v q ks st j :
  j ∉ ks → st_cells (visits v q ks st) !! j = st_cells st !! j.
Proof.
  revert st. induction ks as [| k ks IH]; intros st Hj; [done |].
  apply not_elem_of_cons in Hj as [Hne Hj].
  rewrite visits_cons, IH by done. by apply visit_lookup_ne.
Qed.

(** A scan that marks no cell changes nothing at all. *)
Lemma visits_unchanged v q ks st :
  usedCells (visits v q ks st) = usedCells st → visits v q ks st = st.
Proof.
  revert st. induction ks as [| k ks IH]; intros st E; [done |].
  rewrite visits_cons in *.
  assert (Hk : usedCells (visit v q st k) = usedCells st).
  { apply (anti_symm (⊆)); [| apply visit_used_mono].
    rewrite <- E. apply visits_used_mono. }
  apply visit_unchanged in Hk. rewrite Hk in *. by apply IH.
Qed.

(** Which cells a scan marks: those that were unused and whose area, as it
    was when the scan began, contains [q]. *)
Lemma visits_used_iff v q ks st j :
  NoDup ks →
  j ∈ usedCells (visits v q ks st) ↔
  j ∈ usedCells st ∨
  (j ∈ ks ∧ ∃ cj, st_cells st !! j = Some cj ∧ contains (area cj) q = true).
Proof.
  revert st. induction ks as [| k ks IH]; intros st Hnd.
  - split; [by left | intros [H | [H _]]; [done | by apply elem_of_nil in H]].
  - apply NoDup_cons in Hnd as [Hk Hnd].
    rewrite visits_cons, (IH _ Hnd). clear IH.
    split.
    + intros [Hj | (Hj & cj & Hl & Hq)].
      * destruct (visit_cases v q st k) as [E | (Hn & (ck & Hl & Hq) & E)].
        { rewrite E in Hj. by left. }
        rewrite E in Hj. apply elem_of_union in Hj as [Hj | Hj]; [| by left].
        apply elem_of_singleton in Hj as ->.
        right. split; [apply list_elem_of_here | eauto].
      * rewrite visit_lookup_ne in Hl by (intros ->; done).
        right. split; [by apply list_elem_of_further | eauto].
    + intros [Hj | (Hj & cj & Hl & Hq)].
      * left. by apply visit_used_mono.
      * apply elem_of_cons in Hj as [-> | Hj].
        -- left. destruct (decide (k ∈ usedCells st)) as [Hin | Hnin].
           ++ by apply visit_used_mono.
           ++ rewrite (visit_marks v q st k cj) by done.
              apply elem_of_union_l. by apply elem_of_singleton.
        -- right. split; [done |]. exists cj. split; [| done].
           rewrite visit_lookup_ne; [done | intros ->; done].
Qed.

Lemma scan_visits v q st : scan v q st = visits v q (seq 0 (length (st_cells st))) st.
Proof. done. Qed.

Lemma scan_used_iff v q st j :
  j ∈ usedCells (scan v q st) ↔
  j ∈ usedCells st ∨ ∃ cj, st_cells st !! j = Some cj ∧ contains (area cj) q = true.
Proof.
  rewrite scan_visits, visits_used_iff by apply NoDup_seq.
  split; intros [H | H]; try (by left); right.
  - by destruct H.
  - destruct H as (cj & Hl & Hq). split; [| eauto].
    apply elem_of_seq. apply lookup_lt_Some in Hl. lia.
Qed.

(** ** The cascade *)

Lemma iteration_length v q st :
  length (st_cells (iteration v q st)) = length (st_cells st).
Proof. unfold iteration. simpl. rewrite scan_visits. apply visits_length. Qed.

Lemma iteration_sites v q st :
  map site (st_cells (iteration v q st)) = map site (st_cells st).
Proof. unfold iteration. simpl. rewrite scan_visits. apply visits_sites. Qed.

Lemma iteration_colours v q st :
  map colour (st_cells (iteration v q st)) = map colour (st_cells st).
Proof. unfold iteration. simpl. rewrite scan_visits. apply visits_colours. Qed.

Lemma iteration_used_mono v q st : usedCells st ⊆ usedCells (iteration v q st).
Proof. unfold iteration. simpl. rewrite scan_visits. apply visits_used_mono. Qed.

Lemma iteration_lookup_used v q st j :
  j ∈ usedCells st → st_cells (iteration v q st) !! j = st_cells st !! j.
Proof. unfold iteration. simpl. rewrite scan_visits. apply visits_lookup_used. Qed.

Lemma cascade_0 v st :
  cascade 0 v st = match data (rC st) with [] => Some st | _ :: _ => None end.
Proof. done. Qed.

Lemma cascade_S fuel v st :
  cascade (S fuel) v st =
  match data (rC st) with
  | [] => Some st
  | q :: _ => cascade fuel v (iteration v q st)
  end.
Proof. done. Qed.

Lemma cascade_fuel_S fuel v st st' :
  cascade fuel v st = Some st' → cascade (S fuel) v st = Some st'.
Proof.
  revert st. induction fuel as [| fuel IH]; intros st H.
  - rewrite cascade_0 in H. rewrite cascade_S. by destruct (data (rC st)).
  - rewrite cascade_S in H. rewrite cascade_S.
    destruct (data (rC st)) as [| q l]; [done |]. by apply IH.
Qed.

Lemma cascade_fuel_mono fuel fuel' v st st' :
  fuel ≤ fuel' → cascade fuel v st = Some st' → cascade fuel' v st = Some st'.
Proof.
  induction 1 as [| m Hle IH]; [done |].
  intros H. by apply cascade_fuel_S, IH.
Qed.

(** What the cascade preserves: the number of cells, their sites and
    colours, and every cell that was already marked used. *)
Lemma cascade_preserves fuel v st st' :
  cascade fuel v st = Some st' →
  length (st_cells st') = length (st_cells st) ∧
  map site (st_cells st') = map site (st_cells st) ∧
  map colour (st_cells st') = map colour (st_cells st) ∧
  usedCells st ⊆ usedCells st' ∧
  (∀ j, j ∈ usedCells st → st_cells st' !! j = st_cells st !! j) ∧
  data (rC st') = [].
Proof.
  revert st. induction fuel as [| fuel IH]; intros st H.
  - rewrite cascade_0 in H. destruct (data (rC st)) eqn:Hd; [| done].
    injection H as <-. done.
  - rewrite cascade_S in H. destruct (data (rC st)) as [| q l] eqn:Hd.
    { injection H as <-. done. }
    destruct (IH _ H) as (Hlen & Hs & Hc & Hu & Hl & He).
    rewrite iteration_length in Hlen. rewrite iteration_sites in Hs.
    rewrite iteration_colours in Hc.
    repeat split; try done.
    + etrans; [apply (iteration_used_mono v q) | done].
    + intros j Hj. rewrite Hl by (by apply iteration_used_mono).
      by apply iteration_lookup_used.
Qed.

Lemma scan_unused_lt v q st :
  usedCells (scan v q st) ≠ usedCells st →
  unused (iteration v q st) < unused st.
Proof.
  intros Hne. unfold unused. rewrite iteration_length.
  unfold iteration. simpl.
  pose proof (visits_used_mono v q (seq 0 (length (st_cells st))) st) as Hm.
  pose proof (visits_used_bound v q (seq 0 (length (st_cells st))) st) as Hb.
  rewrite <- scan_visits in Hm, Hb.
  apply subset_size. apply strict_spec_alt. split.
  { intros j Hj. apply elem_of_difference in Hj as [Hj Hn].
    apply elem_of_difference. split; [done |]. intros Hu. apply Hn. by apply Hm. }
  intros E. apply Hne. apply set_eq. intros j. split; [| by apply Hm].
  intros Hj. destruct (decide (j ∈ usedCells st)) as [| Hn]; [done |].
  exfalso. pose proof (Hb _ Hj) as Hj'.
  apply elem_of_union in Hj' as [Hj' | Hj']; [done |].
  apply elem_of_list_to_set, elem_of_seq in Hj'.
  assert (Hin : j ∈ (set_seq 0 (length (st_cells st)) ∖ usedCells st : gset nat)).
  { apply elem_of_difference. split; [| done]. apply elem_of_set_seq. lia. }
  rewrite <- E in Hin. apply elem_of_difference in Hin as [_ Hin]. by apply Hin.
Qed.

(** ** What an insertion does to the list of cells *)

Lemma set_add_sites cs cs0 c :
  map site cs = map site cs0 →
  map site (set_add cs c) =
  map site cs0 ++ (if has_site cs0 (site c) then [] else [site c]).
Proof.
  intros Hm. rewrite <- (has_site_map _ _ _ Hm).
  destruct (set_add_cases cs c) as [[-> ->] | [-> ->]].
  - by rewrite app_nil_r.
  - by rewrite map_app, Hm.
Qed.

Lemma set_add_colours cs cs0 c :
  map colour cs = map colour cs0 → map site cs = map site cs0 →
  map colour (set_add cs c) =
  map colour cs0 ++ (if has_site cs0 (site c) then [] else [colour c]).
Proof.
  intros Hc Hm. rewrite <- (has_site_map _ _ _ Hm).
  destruct (set_add_cases cs c) as [[-> ->] | [-> ->]].
  - by rewrite app_nil_r.
  - by rewrite map_app, Hc.
Qed.

Lemma split_and_cascade_Some fuel cs v col i kept other remainder (r : voronoi) :
  split_and_cascade fuel cs v col i kept other remainder = Some r →
  ∃ st, cascade fuel v (CascadeState (assign_area cs i kept) {[i]} remainder other) = Some st ∧
        cells r = set_add (st_cells st) (cell_site_area_colour v (newCell st) col) ∧
        map site (st_cells st) = map site cs ∧
        map colour (st_cells st) = map colour cs ∧
        st_cells st !! i = assign_area cs i kept !! i.
Proof.
  unfold split_and_cascade. intros H.
  destruct (cascade _ _ _) as [st |] eqn:Hc; [| done]. simpl in H.
  injection H as <-. exists st.
  destruct (cascade_preserves _ _ _ _ Hc) as (_ & Hs & Hcol & _ & Hl & _). simpl in *.
  rewrite assign_area_sites in Hs. rewrite assign_area_colours in Hcol.
  repeat split; try done. apply Hl. by apply elem_of_singleton.
Qed.

(** Every insertion keeps the stored cells' sites and colours in place and
    appends at most one cell, exactly when the insertion is effective. *)
Lemma insert_sites fuel D c (r : voronoi) :
  insert boundingBoxSize fuel D c = Some r →
  map site (cells r) =
    map site (cells D) ++ (if effective D (site c) then [site c] else []) ∧
  map colour (cells r) =
    map colour (cells D) ++ (if effective D (site c) then [colour c] else []).
Proof.
  unfold insert, effective, splits. destruct (cells D) as [| c0 cs0] eqn:HD.
  { intros H. injection H as <-. done. }
  cbv beta iota zeta. remember (c0 :: cs0) as cs eqn:Hcs. clear Hcs.
  destruct (locate cs (site c)) as [i |] eqn:Hloc.
  2: { intros H. injection H as <-. by rewrite HD, !app_nil_r. }
  destruct (cs !! i) as [cn |] eqn:Hl; [| done]. simpl.
  destruct (clip (area cn) (bisector (site c) (site cn))) as [[[rA |] [rB |]] rd2];
    try (intros H; injection H as <-; simpl; by rewrite HD, !app_nil_r).
  simpl.
  assert (Hsc : ∀ kept other,
    split_and_cascade fuel cs (site c) (colour c) i kept other (from_maybe rd2)
      = Some r →
    map site (cells r) = map site cs ++
      (if negb (has_site cs (site c)) then [site c] else []) ∧
    map colour (cells r) = map colour cs ++
      (if negb (has_site cs (site c)) then [colour c] else [])).
  { intros kept other H.
    destruct (split_and_cascade_Some _ _ _ _ _ _ _ _ _ H) as (st & _ & -> & Hs & Hc & _).
    rewrite (set_add_sites _ _ _ Hs), (set_add_colours _ _ _ Hc Hs). simpl.
    by destruct (has_site cs (site c)). }
  destruct (contains rA (site cn)); [apply Hsc |].
  destruct (contains rB (site cn)); [apply Hsc |].
  intros H. injection H as <-. simpl.
  rewrite (set_add_sites _ cs), (set_add_colours _ cs) by done.
  simpl. by destruct (has_site cs (site c)).
Qed.

Lemma insert_length fuel D c (r : voronoi) :
  insert boundingBoxSize fuel D c = Some r →
  length (cells r) = length (cells D) + (if effective D (site c) then 1 else 0).
Proof.
  intros H. apply insert_sites in H as [H _].
  apply (f_equal length) in H. rewrite length_app, !length_map in H.
  rewrite H. by destruct (effective D (site c)).
Qed.

Lemma insert_all_length fuel cs D (r : voronoi) :
  insert_all boundingBoxSize fuel D cs = Some r →
  length (cells r) = length (cells D) + effective_count boundingBoxSize fuel D cs.
Proof.
  revert D. induction cs as [| c cs IH]; intros D H; simpl in *.
  { injection H as <-. lia. }
  destruct (insert boundingBoxSize fuel D c) as [D' |] eqn:Hi; [| done]. simpl in H.
  rewrite (IH _ H), (insert_length _ _ _ _ Hi). lia.
Qed.

(** The colour payload enters only when the new cell is built. *)
Lemma insert_factor fuel D c :
  insert boundingBoxSize fuel D c =
  match insert_core boundingBoxSize fuel D (site c) with
  | None => None
  | Some (cs, None) => Some (Voronoi cs)
  | Some (cs, Some ar) =>
    Some (Voronoi (set_add cs (cell_site_area_colour (site c) ar (colour c))))
  end.
Proof.
  unfold insert, insert_core. destruct D as [[| c0 cs0]]; simpl; [done |].
  destruct (locate (c0 :: cs0) (site c)) as [i |]; [| done].
  destruct ((c0 :: cs0) !! i) as [cn |]; [| done]. simpl.
  destruct (clip (area cn) (bisector (site c) (site cn))) as [[[rA |] [rB |]] rd2];
    try done.
  unfold split_and_cascade, cascade_core.
  destruct (contains rA (site cn)); [by destruct (cascade _ _ _) |].
  destruct (contains rB (site cn)); [by destruct (cascade _ _ _) | done].
Qed.



Lemma split_and_cascade_fuel_mono fuel fuel' cs v col i kept other remainder
    (r : voronoi) :
  fuel ≤ fuel' →
  split_and_cascade fuel cs v col i kept other remainder = Some r →
  split_and_cascade fuel' cs v col i kept other remainder = Some r.
Proof.
  intros Hle. unfold split_and_cascade.
  destruct (cascade fuel v _) as [st |] eqn:Hc; [| done].
  by rewrite (cascade_fuel_mono _ _ _ _ _ Hle Hc).
Qed.

Lemma insert_fuel_mono fuel fuel' D c (r : voronoi) :
  fuel ≤ fuel' →
  insert boundingBoxSize fuel D c = Some r → insert boundingBoxSize fuel' D c = Some r.
Proof.
  intros Hle. unfold insert. destruct (cells D) as [| c0 cs0]; [done |].
  destruct (locate (c0 :: cs0) (site c)) as [i |]; [| done].
  destruct ((c0 :: cs0) !! i) as [cn |]; [| done]. simpl.
  destruct (clip (area cn) (bisector (site c) (site cn))) as [[[rA |] [rB |]] rd2];
    try done.
  destruct (contains rA (site cn)); [by apply split_and_cascade_fuel_mono |].
  destruct (contains rB (site cn)); [by apply split_and_cascade_fuel_mono | done].
Qed.

(** The cascade of an insertion starts in [cascade_start]. *)
Lemma insert_cascade_start fuel D c st0 :
  cascade_start D (site c) = Some st0 →
  insert boundingBoxSize fuel D c =
  st ← cascade fuel (site c) st0;
  Some (Voronoi (set_add (st_cells st)
                   (cell_site_area_colour (site c) (newCell st) (colour c)))).
Proof.
  unfold cascade_start, insert.
  destruct (cells D) as [| c0 cs0] eqn:HD; [done |].
  cbv beta iota zeta. remember (c0 :: cs0) as cs eqn:Hcs. clear Hcs.
  destruct (locate cs (site c)) as [i |]; [| done]. simpl.
  destruct (cs !! i) as [cn |]; [| done]. simpl.
  destruct (clip (area cn) (bisector (site c) (site cn))) as [[[rA |] [rB |]] rd2];
    try done.
  destruct (contains rA (site cn)); [by intros [= <-] |].
  destruct (contains rB (site cn)); [by intros [= <-] | done].
Qed.

(** Re-entering the procedure on a degenerate split never comes back: the
    re-entry meets the same diagram and the same site. *)
Lemma insert_reentrant_degenerate depth fuel D : ∀ c,
  degenerate_split D (site c) = true →
  insert_reentrant boundingBoxSize depth fuel D c = None.
Proof.
  intros c Hdeg. remember (site c) as v eqn:Hv. revert c Hv.
  unfold degenerate_split in Hdeg.
  destruct (cells D) as [| c0 cs0] eqn:HD; [done |].
  destruct (locate (c0 :: cs0) v) as [i |] eqn:Hloc; [| done].
  destruct ((c0 :: cs0) !! i) as [cn |] eqn:Hl; [| done].
  destruct (clip (area cn) (bisector v (site cn)))
    as [[[rA |] [rB |]] rd2] eqn:Hclip; try done.
  apply andb_prop in Hdeg as [HA%negb_true_iff HB%negb_true_iff].
  induction depth as [| depth IH]; intros c ->; simpl;
    rewrite HD; cbv beta iota zeta; rewrite Hloc, Hl; simpl;
    rewrite Hclip, HA, HB; [done |].
  by apply IH.
Qed.

(** ** What one visit does *)

Lemma assign_area_insert cs k P ck :
  cs !! k = Some ck → assign_area cs k P = <[k := with_area ck P]> cs.
Proof. intros H. unfold assign_area. by rewrite H. Qed.

Lemma visit_effect v q st k :
  visit v q st k = st ∨
  ((k ∉ usedCells st) ∧
   ∃ ck, st_cells st !! k = Some ck ∧ contains (area ck) q = true ∧
     usedCells (visit v q st k) = {[k]} ∪ usedCells st ∧
     st_cells (visit v q st k) =
       match retained v ck with
       | Some ck' => <[k := ck']> (st_cells st)
       | None => st_cells st
       end ∧
     newCell (visit v q st k) =
       match ceded v ck with
       | Some P => punion (newCell st) P
       | None => newCell st
       end).
Proof.
  unfold visit. destruct (decide (k ∈ usedCells st)) as [Hin | Hnin]; [by left |].
  destruct (st_cells st !! k) as [ck |] eqn:Hk; [| by left].
  destruct (contains (area ck) q) eqn:Hq; [| by left].
  right. split; [done |]. exists ck. split; [done |]. split; [done |].
  unfold retained, ceded.
  destruct (clip (area ck) (bisector v (site ck))) as [[[rD |] [rE |]] rF]; simpl; try done.
  destruct (contains rD (site ck)); simpl.
  { by rewrite (assign_area_insert _ _ _ _ Hk). }
  destruct (contains rE (site ck)); simpl; [| done].
  by rewrite (assign_area_insert _ _ _ _ Hk).
Qed.

Lemma fold_punion_snoc (ps : list polygon) (o : option polygon) (nc0 : polygon) :
  match o with
  | Some P => punion (fold_left punion ps nc0) P
  | None => fold_left punion ps nc0
  end = fold_left punion (ps ++ option_list o) nc0.
Proof. rewrite fold_left_app. by destruct o. Qed.

Lemma visit_inv v q orig used0 nc0 st k :
  cascade_inv v orig used0 nc0 st → cascade_inv v orig used0 nc0 (visit v q st k).
Proof.
  intros (Hsub & Hun & Hcl & ks & Hnd & Hks & Hnc).
  destruct (visit_effect v q st k) as [-> | (Hk & ck & Hl & _ & Hu & Hc & Hn)].
  { split; [done |]. split; [done |]. split; [done |]. by exists ks. }
  assert (Ho : orig !! k = Some ck) by (by rewrite <- (Hun k Hk)).
  assert (Hne : ∀ j, j ≠ k → st_cells (visit v q st k) !! j = st_cells st !! j).
  { intros j Hj. rewrite Hc. destruct (retained v ck); [| done].
    apply list_lookup_insert_ne. congruence. }
  split; [| split; [| split]].
  - rewrite Hu. etrans; [exact Hsub | apply union_subseteq_r].
  - intros j Hj. rewrite Hu in Hj. apply not_elem_of_union in Hj as [Hj1 Hj2].
    apply not_elem_of_singleton in Hj1. rewrite (Hne j Hj1). by apply Hun.
  - intros j cj Hj. destruct (decide (j = k)) as [-> | Hjk].
    + assert (cj = ck) as -> by congruence. rewrite Hc.
      destruct (retained v ck) as [ck' |] eqn:Hr.
      * right. exists ck'. split; [done |].
        apply list_lookup_insert_eq. by eapply lookup_lt_Some.
      * left. done.
    + rewrite (Hne j Hjk). by apply Hcl.
  - exists (ks ++ [k]). split; [| split].
    + apply NoDup_app. split; [done |]. split; [| apply NoDup_singleton].
      intros x Hx Hx'. apply list_elem_of_singleton in Hx' as ->.
      by destruct (proj1 (Hks k) Hx).
    + intros x. rewrite Hu, elem_of_app, list_elem_of_singleton, (Hks x),
        elem_of_union, elem_of_singleton. split.
      * intros [[H1 H2] | ->]; [split; [by right | done] |].
        split; [by left |]. intros Hk0. apply Hk. by apply Hsub.
      * intros [[-> | H1] H2]; [by right | by left].
    + rewrite Hn, Hnc, omap_app. simpl. rewrite Ho. simpl.
      rewrite fold_left_app. by destruct (ceded v ck).
Qed.

Lemma visits_inv v q orig used0 nc0 ks st :
  cascade_inv v orig used0 nc0 st → cascade_inv v orig used0 nc0 (visits v q ks st).
Proof.
  revert st. induction ks as [| k ks IH]; intros st H; [done |].
  rewrite visits_cons. by apply IH, visit_inv.
Qed.

Lemma iteration_inv v q orig used0 nc0 st :
  cascade_inv v orig used0 nc0 st → cascade_inv v orig used0 nc0 (iteration v q st).
Proof.
  intros H. apply (visits_inv v q _ _ _ (seq 0 (length (st_cells st)))) in H.
  exact H.
Qed.

Lemma cascade_keeps_inv fuel v orig used0 nc0 st st' :
  cascade fuel v st = Some st' →
  cascade_inv v orig used0 nc0 st → cascade_inv v orig used0 nc0 st'.
Proof.
  revert st. induction fuel as [| fuel IH]; intros st H Hinv.
  - rewrite cascade_0 in H. destruct (data (rC st)); [| done]. by injection H as <-.
  - rewrite cascade_S in H. destruct (data (rC st)) as [| q l].
    { by injection H as <-. }
    apply (IH _ H). by apply iteration_inv.
Qed.

Lemma cascade_inv_start v st :
  cascade_inv v (st_cells st) (usedCells st) (newCell st) st.
Proof.
  split; [done |]. split; [done |]. split; [by left |].
  exists []. split; [apply NoDup_nil_2 |]. split; [| done].
  intros k. split; [intros Hk; by apply elem_of_nil in Hk | by intros [H1 H2]].
Qed.

(** ** What one iteration does *)

Lemma hit_true q st k :
  hit q st k = true ↔
  (k ∉ usedCells st) ∧ ∃ ck, st_cells st !! k = Some ck ∧ contains (area ck) q = true.
Proof.
  unfold hit. rewrite andb_true_iff, bool_decide_eq_true.
  destruct (st_cells st !! k) as [ck |]; split.
  - intros [H1 H2]. split; [done |]. by exists ck.
  - intros (H1 & ck' & [= <-] & H2). done.
  - intros [_ H]. done.
  - intros (_ & ck' & H & _). done.
Qed.

Lemma marked_by_iff q st k :
  k ∈ marked_by q st ↔
  (k ∉ usedCells st) ∧ ∃ ck, st_cells st !! k = Some ck ∧ contains (area ck) q = true.
Proof.
  unfold marked_by. rewrite list_elem_of_filter, hit_true. split; [by intros [H _] |].
  intros H. split; [done |]. destruct H as (_ & ck & Hl & _).
  apply elem_of_seq. split; [lia |]. simpl. by eapply lookup_lt_Some.
Qed.

Lemma visit_miss v q st k : hit q st k = false → visit v q st k = st.
Proof.
  unfold hit, visit. destruct (decide (k ∈ usedCells st)) as [| Hn]; [done |].
  rewrite (bool_decide_eq_true_2 _ Hn). simpl.
  destruct (st_cells st !! k) as [ck |]; [| done]. by intros ->.
Qed.

Lemma visit_hit v q st k ck :
  hit q st k = true → st_cells st !! k = Some ck →
  usedCells (visit v q st k) = {[k]} ∪ usedCells st ∧
  st_cells (visit v q st k) = <[k := clipped v ck]> (st_cells st) ∧
  newCell (visit v q st k) = fold_left punion (option_list (ceded v ck)) (newCell st) ∧
  rC (visit v q st k) = fold_left padd (queued v ck) (rC st).
Proof.
  intros Hh Hl. apply hit_true in Hh as (Hn & ck' & Hl' & Hq).
  assert (ck' = ck) as -> by congruence.
  unfold visit, clipped, retained, ceded, queued.
  destruct (decide (k ∈ usedCells st)); [done |]. rewrite Hl, Hq.
  destruct (clip (area ck) (bisector v (site ck))) as [[[rD |] [rE |]] rF]; simpl;
    try (by rewrite list_insert_id).
  destruct (contains rD (site ck)); simpl.
  { by rewrite (assign_area_insert _ _ _ _ Hl). }
  destruct (contains rE (site ck)); simpl.
  { by rewrite (assign_area_insert _ _ _ _ Hl). }
  by rewrite list_insert_id.
Qed.

(** The loop body run over distinct indices [js], told from the state the
    run begins in: the cells it marks are those of [js] that pass the tests
    in that state, and each of them is clipped as it was then. *)
Lemma visits_effect v q st js :
  NoDup js →
  usedCells (visits v q js st) =
    usedCells st ∪ list_to_set (filter (λ k, hit q st k = true) js) ∧
  (∀ j cj, st_cells st !! j = Some cj →
     st_cells (visits v q js st) !! j =
       Some (if bool_decide (j ∈ filter (λ k, hit q st k = true) js)
             then clipped v cj else cj)) ∧
  newCell (visits v q js st) =
    fold_left punion
      (omap (λ k, st_cells st !! k ≫= ceded v) (filter (λ k, hit q st k = true) js))
      (newCell st) ∧
  rC (visits v q js st) =
    fold_left padd
      (concat (omap (λ k, queued v <$> st_cells st !! k)
                    (filter (λ k, hit q st k = true) js)))
      (rC st).
Proof.
  induction js as [| k js IH] using rev_ind; intros Hnd.
  { simpl. split; [by rewrite (right_id_L ∅ (∪)) | done]. }
  apply NoDup_app in Hnd as (Hnd & Hk & _).
  assert (Hkjs : k ∉ js).
  { intros Hin. apply (Hk k Hin). by apply list_elem_of_singleton. }
  destruct (IH Hnd) as (Hu & Hc & Hn & Hr). clear IH.
  unfold visits in *. rewrite fold_left_app. simpl.
  set (st1 := fold_left (visit v q) js st) in *.
  assert (Hl1 : st_cells st1 !! k = st_cells st !! k)
    by (by apply visits_lookup_notin).
  assert (Hh1 : hit q st1 k = hit q st k).
  { unfold hit. rewrite Hl1. f_equal. apply bool_decide_ext. rewrite Hu.
    rewrite not_elem_of_union, elem_of_list_to_set, list_elem_of_filter.
    split; [by intros [H _] |]. intros H. split; [done |]. by intros [_ Hin]. }
  rewrite filter_app, filter_cons, filter_nil.
  destruct (decide (hit q st k = true)) as [Hh | Hh].
  - assert (Hh' : hit q st1 k = true) by congruence.
    destruct (proj1 (hit_true q st k) Hh) as (_ & ck & Hl & _).
    destruct (visit_hit v q st1 k ck Hh') as (Hu' & Hc' & Hn' & Hr'); [congruence |].
    split; [| split; [| split]].
    + rewrite Hu', Hu, list_to_set_app_L. simpl. apply set_eq. intros x.
      rewrite !elem_of_union, elem_of_singleton, elem_of_empty. tauto.
    + intros j cj Hj. rewrite Hc'. destruct (decide (j = k)) as [-> | Hne].
      * assert (cj = ck) as -> by congruence.
        rewrite list_lookup_insert_eq.
        2:{ rewrite <- Hl1 in Hl. by eapply lookup_lt_Some. }
        rewrite bool_decide_eq_true_2; [done |].
        apply elem_of_app. right. by apply list_elem_of_singleton.
      * rewrite list_lookup_insert_ne by done. rewrite (Hc j cj Hj). f_equal.
        assert (E : bool_decide (j ∈ filter (λ k0, hit q st k0 = true) js ++ [k]) =
                    bool_decide (j ∈ filter (λ k0, hit q st k0 = true) js)).
        { apply bool_decide_ext. rewrite elem_of_app, list_elem_of_singleton. tauto. }
        by rewrite E.
    + rewrite Hn', Hn, omap_app, fold_left_app. simpl. rewrite Hl. simpl.
      by destruct (ceded v ck).
    + rewrite Hr', Hr, omap_app, concat_app, fold_left_app. simpl. rewrite Hl. simpl.
      by rewrite app_nil_r.
  - assert (Hh' : hit q st1 k = false).
    { rewrite Hh1. by destruct (hit q st k). }
    rewrite (visit_miss v q st1 k Hh'), app_nil_r. done.
Qed.

Lemma iteration_effect v q st :
  usedCells (iteration v q st) = usedCells st ∪ list_to_set (marked_by q st) ∧
  (∀ j cj, st_cells st !! j = Some cj →
     st_cells (iteration v q st) !! j =
       Some (if bool_decide (j ∈ marked_by q st) then clipped v cj else cj)) ∧
  newCell (iteration v q st) =
    fold_left punion (omap (λ k, st_cells st !! k ≫= ceded v) (marked_by q st))
              (newCell st) ∧
  rC (iteration v q st) =
    psub (fold_left padd
            (concat (omap (λ k, queued v <$> st_cells st !! k) (marked_by q st)))
            (rC st)) q.
Proof.
  destruct (visits_effect v q st (seq 0 (length (st_cells st))) (NoDup_seq _ _))
    as (Hu & Hc & Hn & Hr).
  unfold iteration, scan, marked_by. simpl. by rewrite Hr.
Qed.

Lemma omap_filter_ne {A} (f : nat → option A) k (ks : list nat) :
  f k = None → omap f (filter (λ j, j ≠ k) ks) = omap f ks.
Proof.
  intros Hk. induction ks as [| x ks IH]; [done |].
  assert (Hc : ∀ y l, omap f (y :: l) =
                      match f y with Some z => z :: omap f l | None => omap f l end)
    by done.
  rewrite filter_cons. destruct (decide (x ≠ k)) as [Hx | Hx].
  - by rewrite !Hc, IH.
  - apply dec_stable in Hx as ->. by rewrite Hc, Hk, IH.
Qed.

(** ** Termination *)

Section WorklistContract.
(** The contract of [polygon - vector] on the worklist: removing the
    point at the front leaves fewer points. *)
Hypothesis psub_shrinks : ∀ P q l,
  data P = q :: l → length (data (psub P q)) < length (data P).

Lemma cascade_terminates_aux v m : ∀ len st,
  unused st ≤ m → length (data (rC st)) ≤ len → ∃ fuel r, cascade fuel v st = Some r.
Proof using psub_shrinks.
  induction m as [m IHm] using lt_wf_ind.
  induction len as [len IHlen] using lt_wf_ind.
  intros st Hm Hlen.
  destruct (data (rC st)) as [| q l] eqn:Hd.
  { exists 0, st. by rewrite cascade_0, Hd. }
  destruct (decide (usedCells (scan v q st) = usedCells st)) as [E | Hne].
  - assert (Hscan : scan v q st = st).
    { rewrite scan_visits in *. by apply visits_unchanged. }
    assert (Hit : iteration v q st =
                  CascadeState (st_cells st) (usedCells st) (psub (rC st) q) (newCell st)).
    { unfold iteration. by rewrite Hscan. }
    pose proof (psub_shrinks _ _ _ Hd) as Hlt. rewrite Hd in Hlt.
    destruct (IHlen (length (data (psub (rC st) q))) ltac:(lia) (iteration v q st))
      as (fuel & r & Hr).
    + rewrite Hit. done.
    + rewrite Hit. done.
    + exists (S fuel), r. by rewrite cascade_S, Hd.
  - pose proof (scan_unused_lt v q st Hne) as Hlt.
    destruct (IHm (unused (iteration v q st)) ltac:(lia)
                  (length (data (rC (iteration v q st)))) (iteration v q st))
      as (fuel & r & Hr); [done | done |].
    exists (S fuel), r. by rewrite cascade_S, Hd.
Qed.

Lemma cascade_total v st : ∃ fuel r, cascade fuel v st = Some r.
Proof using psub_shrinks. by eapply cascade_terminates_aux. Qed.

Lemma split_and_cascade_total cs v col i kept other remainder :
  ∃ fuel r, ∀ fuel', fuel ≤ fuel' →
    split_and_cascade fuel' cs v col i kept other remainder = Some r.
Proof using psub_shrinks.
  destruct (cascade_total v
    (CascadeState (assign_area cs i kept) {[i]} remainder other)) as (fuel & st & H).
  exists fuel. eexists. intros fuel' Hle. unfold split_and_cascade.
  by rewrite (cascade_fuel_mono _ _ _ _ _ Hle H).
Qed.

Lemma insert_total D c :
  ∃ fuel r, ∀ fuel', fuel ≤ fuel' → insert boundingBoxSize fuel' D c = Some r.
Proof using psub_shrinks.
  unfold insert. destruct (cells D) as [| c0 cs0] eqn:Hc.
  { exists 0. eexists. done. }
  destruct (locate (c0 :: cs0) (site c)) as [i |] eqn:Hloc.
  2: { exists 0. eexists. done. }
  destruct (locate_Some _ _ _ Hloc) as (cn & Hl & _). rewrite Hl. simpl.
  destruct (clip (area cn) (bisector (site c) (site cn))) as [[[rA |] [rB |]] rd2];
    try (exists 0; eexists; done).
  destruct (contains rA (site cn)); [apply split_and_cascade_total |].
  destruct (contains rB (site cn)); [apply split_and_cascade_total |].
  exists 0. eexists. done.
Qed.

Lemma insert_all_total cs : ∀ D,
  ∃ fuel (r : voronoi), ∀ fuel', fuel ≤ fuel' →
    insert_all boundingBoxSize fuel' D cs = Some r.
Proof using psub_shrinks.
  induction cs as [| c cs IH]; intros D.
  { exists 0, D. done. }
  destruct (insert_total D c) as (f1 & D' & H1).
  destruct (IH D') as (f2 & r & H2).
  exists (f1 `max` f2), r. intros fuel' Hle. simpl.
  rewrite H1 by lia. simpl. apply H2. lia.
Qed.

(** ** The insertion operator *)

(** C1 (amended). Inserting the first site [v] into the empty diagram
    yields exactly one cell, with site [v] and the given colour, whose
    polygon is the axis-aligned square centred on [v] itself: its corners
    are [(v0 - b, v1 - b)], [(v0 + b, v1 - b)], [(v0 + b, v1 + b)] and
    [(v0 - b, v1 + b)] for the half-width [b]. No clip and no cascade is
    involved: the result is the same for every amount of fuel and for
    every kernel. *)
Theorem bootstrap_square_about_site fuel c :
  insert boundingBoxSize fuel empty_voronoi c =
  Some (Voronoi
    [Cell (site c)
       (Polygon
          [ (ssub (fst (site c)) (sofnat boundingBoxSize),
             ssub (snd (site c)) (sofnat boundingBoxSize));
            (sadd (fst (site c)) (sofnat boundingBoxSize),
             ssub (snd (site c)) (sofnat boundingBoxSize));
            (sadd (fst (site c)) (sofnat boundingBoxSize),
             sadd (snd (site c)) (sofnat boundingBoxSize));
            (ssub (fst (site c)) (sofnat boundingBoxSize),
             sadd (snd (site c)) (sofnat boundingBoxSize)) ]
          (colour c))
       (colour c)]).
Proof. done. Qed.

(** C2 (amended). When the clip of the located cell yields two
    sub-polygons and neither contains the located cell's site, the
    insertion does not enter the procedure again: it adds the cell built
    from [v], the second sub-polygon and the colour to the cell
    collection and returns, leaving every stored cell as it was and
    running no cascade. *)
Theorem degenerate_split_adds_cell_directly fuel D c i cn rA rB rd2 :
  locate (cells D) (site c) = Some i →
  cells D !! i = Some cn →
  clip (area cn) (bisector (site c) (site cn)) = (Some rA, Some rB, rd2) →
  contains rA (site cn) = false →
  contains rB (site cn) = false →
  insert boundingBoxSize fuel D c =
  Some (Voronoi (set_add (cells D) (cell_site_area_colour (site c) rB (colour c)))).
Proof.
  intros Hloc Hl Hclip HA HB. unfold insert.
  destruct (cells D) as [| c0 cs0] eqn:HD; [done |].
  cbv beta iota zeta. rewrite Hloc, Hl. simpl. by rewrite Hclip, HA, HB.
Qed.

(** C3 (amended). After every sequence of insertions into the empty
    diagram the number of cells equals the number of effective
    insertions, where an insertion is effective iff the diagram is empty
    or its site is contained in the area of some stored cell, the clip of
    the first such cell against the bisector yields two sub-polygons, and
    no stored cell has that site. Every insertion keeps the stored cells'
    sites and colours in place and appends one cell when it is effective,
    none otherwise. That the insertions return rests on the contract of
    [polygon - vector]. *)
Theorem cell_count_counts_effective_insertions (cs : list cell) :
  (∃ fuel0 (r : voronoi), ∀ fuel, fuel0 ≤ fuel →
     insert_all boundingBoxSize fuel empty_voronoi cs = Some r ∧
     length (cells r) = effective_count boundingBoxSize fuel empty_voronoi cs) ∧
  (∀ fuel D c (r : voronoi), insert boundingBoxSize fuel D c = Some r →
     map site (cells r) =
       map site (cells D) ++ (if effective D (site c) then [site c] else []) ∧
     map colour (cells r) =
       map colour (cells D) ++ (if effective D (site c) then [colour c] else [])).
Proof using psub_shrinks.
  split.
  - destruct (insert_all_total cs empty_voronoi) as (fuel0 & r & H).
    exists fuel0, r. intros fuel Hle. split; [by apply H |].
    by rewrite (insert_all_length _ _ _ _ (H _ Hle)).
  - apply insert_sites.
Qed.

(** C4. When the clip of the located cell yields two sub-polygons and
    one of them contains the located cell's site [u], the insertion
    continues with the cascade from a state in which that sub-polygon
    has been assigned to the located cell and the other one is the
    initial area of the new cell; the insertion returns (by the contract
    of [polygon - vector]), and in the returned diagram the located cell
    still has the retained sub-polygon as its area, under its own colour. *)
Theorem split_retains_site_side D c i cn rA rB rd2 :
  locate (cells D) (site c) = Some i →
  cells D !! i = Some cn →
  clip (area cn) (bisector (site c) (site cn)) = (Some rA, Some rB, rd2) →
  contains rA (site cn) = true ∨ contains rB (site cn) = true →
  ∃ kept other,
    ((kept = rA ∧ other = rB) ∨ (kept = rB ∧ other = rA)) ∧
    contains kept (site cn) = true ∧
    (∀ fuel,
       insert boundingBoxSize fuel D c =
       st ← cascade fuel (site c)
              (CascadeState (assign_area (cells D) i kept) {[i]} (from_maybe rd2) other);
       Some (Voronoi (set_add (st_cells st)
                        (cell_site_area_colour (site c) (newCell st) (colour c))))) ∧
    ∃ fuel0 (r : voronoi),
      (∀ fuel, fuel0 ≤ fuel → insert boundingBoxSize fuel D c = Some r) ∧
      cells r !! i = Some (Cell (site cn) (Polygon (data kept) (colour cn)) (colour cn)).
Proof using psub_shrinks.
  intros Hloc Hl Hclip Hor.
  assert (Hk : ∃ kept other,
    ((kept = rA ∧ other = rB) ∨ (kept = rB ∧ other = rA)) ∧
    contains kept (site cn) = true ∧
    ∀ fuel, insert boundingBoxSize fuel D c =
      split_and_cascade fuel (cells D) (site c) (colour c) i kept other (from_maybe rd2)).
  { unfold insert. destruct (cells D) as [| c0 cs0] eqn:HD; [done |].
    cbv beta iota zeta. rewrite Hloc, Hl. simpl. rewrite Hclip.
    destruct (contains rA (site cn)) eqn:HA.
    - exists rA, rB. split; [by left | done].
    - destruct Hor as [? | HB]; [done |]. rewrite HB.
      exists rB, rA. split; [by right | done]. }
  destruct Hk as (kept & other & Hcase & Hcont & Hins).
  exists kept, other. split; [done |]. split; [done |]. split; [apply Hins |].
  destruct (insert_total D c) as (fuel0 & r & Hr).
  exists fuel0, r. split; [done |].
  specialize (Hr fuel0 (Nat.le_refl _)). rewrite Hins in Hr.
  destruct (split_and_cascade_Some _ _ _ _ _ _ _ _ _ Hr) as (st & _ & Hc & _ & _ & Hi).
  rewrite Hc, (assign_area_lookup _ _ _ _ Hl) in *.
  destruct (set_add_cases (st_cells st)
              (cell_site_area_colour (site c) (newCell st) (colour c)))
    as [[_ ->] | [_ ->]]; [done |].
  rewrite lookup_app_l; [done |]. by eapply lookup_lt_Some.
Qed.

(** C5 (amended). In one iteration of the cascade, for the popped point
    [q], every cell that is not yet marked used and whose polygon contains
    [q] is marked used and clipped, not just a first one. The cells the
    iteration marks, [marked_by q st], are exactly the unused cells whose
    area, as it was when the iteration began, contains [q]. Each of them is
    clipped against the bisector of [v] and its site: its area becomes the
    sub-polygon that contains its site, the other sub-polygon is united into
    the new cell's area, and the remainder of the clip is put on the
    worklist, cell after cell in the order of the loop; every other cell is
    left as it was. The iteration always ends by removing [q] from the
    worklist; when no unused cell contains [q] this removal is all that
    happens. *)
Theorem scan_marks_every_containing_cell v q st :
  (∀ j, j ∈ marked_by q st ↔
        (j ∉ usedCells st) ∧
        ∃ cj, st_cells st !! j = Some cj ∧ contains (area cj) q = true) ∧
  (∀ j, j ∈ usedCells (iteration v q st) ↔
        j ∈ usedCells st ∨
        ∃ cj, st_cells st !! j = Some cj ∧ contains (area cj) q = true) ∧
  (∀ j cj, st_cells st !! j = Some cj →
     st_cells (iteration v q st) !! j =
       Some (if bool_decide (j ∈ marked_by q st) then clipped v cj else cj)) ∧
  newCell (iteration v q st) =
    fold_left punion (omap (λ k, st_cells st !! k ≫= ceded v) (marked_by q st))
              (newCell st) ∧
  rC (iteration v q st) =
    psub (fold_left padd
            (concat (omap (λ k, queued v <$> st_cells st !! k) (marked_by q st)))
            (rC st)) q ∧
  rC (iteration v q st) = psub (rC (scan v q st)) q ∧
  ((∀ j cj, j ∉ usedCells st → st_cells st !! j = Some cj →
            contains (area cj) q = false) →
   iteration v q st =
   CascadeState (st_cells st) (usedCells st) (psub (rC st) q) (newCell st)).
Proof.
  destruct (iteration_effect v q st) as (_ & Hc & Hn & Hr).
  split; [apply marked_by_iff |]. split; [| split; [done | split; [done | split; [done |]]]].
  { intros j. apply scan_used_iff. }
  split; [done |].
  intros Hno. assert (Hs : scan v q st = st).
  { apply visits_unchanged. apply set_eq. intros j.
    rewrite <- scan_visits, scan_used_iff. split; [| by left].
    intros [Hj | (cj & Hl & Hq)]; [done |].
    destruct (decide (j ∈ usedCells st)) as [| Hn']; [done |].
    by rewrite (Hno _ _ Hn' Hl) in Hq. }
  unfold iteration. by rewrite Hs.
Qed.

(** C6. The insertion operation terminates: with enough fuel [insert]
    returns a diagram, and the cascade started from any state reaches an
    empty worklist. A used cell is never visited again, and a scan that
    marks no new cell leaves the worklist as it was, so that removing the
    popped point shortens it (the contract of [polygon - vector]). *)
Theorem insertion_terminates D c :
  (∃ fuel (r : voronoi), ∀ fuel', fuel ≤ fuel' →
     insert boundingBoxSize fuel' D c = Some r) ∧
  (∀ v st, ∃ fuel st', cascade fuel v st = Some st' ∧ data (rC st') = []) ∧
  (∀ v q st k, k ∈ usedCells st → visit v q st k = st) ∧
  (∀ v q st, usedCells (scan v q st) = usedCells st → scan v q st = st).
Proof using psub_shrinks.
  split; [apply insert_total |]. split; [| split].
  - intros v st. destruct (cascade_total v st) as (fuel & st' & H).
    exists fuel, st'. split; [done |].
    by destruct (cascade_preserves _ _ _ _ H) as (_ & _ & _ & _ & _ & He).
  - intros v q st k. apply visit_used_skip.
  - intros v q st. rewrite scan_visits. apply visits_unchanged.
Qed.

(** C7. For a non-empty diagram and a site that no stored cell's polygon
    contains, the insertion returns the diagram unchanged. *)
Theorem unlocated_site_noop fuel D c :
  cells D ≠ [] →
  (∀ c', c' ∈ cells D → contains (area c') (site c) = false) →
  insert boundingBoxSize fuel D c = Some D.
Proof.
  intros Hne Hno. unfold insert. destruct (cells D) as [| c0 cs0] eqn:HD; [done |].
  cbv beta iota zeta. unfold locate. by rewrite locate_from_None.
Qed.


(** C9. During the cascade, in the iteration for the popped point [q],
    every cell that is not yet marked used and whose polygon contains [q]
    is marked used, by its visit and so by the scan, whatever its clip
    gives. If the clip yields fewer than two sub-polygons, or two of which
    neither contains the cell's own site, the cell comes out of the
    iteration as it went in, and the new cell's area is united from what
    the other marked cells cede alone. Once marked, the cell is skipped by
    every later visit: the cascade runs on to an empty worklist with the
    cell still marked and exactly as it was, and with a new cell's area made
    up of what the other cells marked on the way have ceded. *)
Theorem degenerate_neighbour_clip_skipped v q st k ck :
  k ∉ usedCells st →
  st_cells st !! k = Some ck →
  contains (area ck) q = true →
  (∀ l fuel, data (rC st) = q :: l →
     cascade (S fuel) v st = cascade fuel v (iteration v q st)) ∧
  k ∈ usedCells (visit v q st k) ∧
  k ∈ marked_by q st ∧
  k ∈ usedCells (scan v q st) ∧
  k ∈ usedCells (iteration v q st) ∧
  (∀ q' st1, k ∈ usedCells st1 → visit v q' st1 k = st1) ∧
  (∀ fuel st1 st2, k ∈ usedCells st1 → cascade fuel v st1 = Some st2 →
     k ∈ usedCells st2 ∧ st_cells st2 !! k = st_cells st1 !! k) ∧
  (match clip (area ck) (bisector v (site ck)) with
   | (Some rD, Some rE, _) =>
     contains rD (site ck) = false ∧ contains rE (site ck) = false
   | _ => True
   end →
   st_cells (visit v q st k) = st_cells st ∧
   newCell (visit v q st k) = newCell st ∧
   st_cells (iteration v q st) !! k = Some ck ∧
   newCell (iteration v q st) =
     fold_left punion
       (omap (λ j, st_cells st !! j ≫= ceded v) (filter (λ j, j ≠ k) (marked_by q st)))
       (newCell st) ∧
   ∃ fuel0 st2,
     (∀ fuel, fuel0 ≤ fuel → cascade fuel v (iteration v q st) = Some st2) ∧
     data (rC st2) = [] ∧
     k ∈ usedCells st2 ∧
     st_cells st2 !! k = Some ck ∧
     ∃ ks, NoDup ks ∧
       (∀ j, j ∈ ks ↔ j ≠ k ∧ j ∈ usedCells st2 ∧ j ∉ usedCells st) ∧
       newCell st2 =
         fold_left punion (omap (λ j, st_cells st !! j ≫= ceded v) ks) (newCell st)).
Proof using psub_shrinks.
  intros Hn Hl Hq.
  assert (Hm : k ∈ marked_by q st).
  { apply marked_by_iff. split; [done |]. by exists ck. }
  assert (Hs : k ∈ usedCells (scan v q st)).
  { apply scan_used_iff. right. by exists ck. }
  split; [| split; [| split; [done | split; [done | split; [done | split; [| split]]]]]].
  - intros l fuel Hd. by rewrite cascade_S, Hd.
  - rewrite (visit_marks v q st k ck) by done.
    apply elem_of_union_l. by apply elem_of_singleton.
  - intros q' st1. apply visit_used_skip.
  - intros fuel st1 st2 Hk Hc.
    destruct (cascade_preserves _ _ _ _ Hc) as (_ & _ & _ & Hu & Hlk & _).
    split; [by apply Hu | by apply Hlk].
  - intros Hdeg.
    assert (Hret : retained v ck = None ∧ ceded v ck = None).
    { unfold retained, ceded.
      destruct (clip (area ck) (bisector v (site ck))) as [[[rD |] [rE |]] rF]; try done.
      by destruct Hdeg as [-> ->]. }
    destruct Hret as [Hret Hced].
    destruct (iteration_effect v q st) as (_ & Hc & Hnc & _).
    assert (Hk : st_cells (iteration v q st) !! k = Some ck).
    { rewrite (Hc k ck Hl). unfold clipped. rewrite Hret. simpl. by destruct (bool_decide _). }
    split; [| split; [| split; [done | split]]].
    + unfold visit. destruct (decide _); [done |]. rewrite Hl, Hq.
      destruct (clip (area ck) (bisector v (site ck))) as [[[rD |] [rE |]] rF]; try done.
      destruct Hdeg as [-> ->]. done.
    + unfold visit. destruct (decide _); [done |]. rewrite Hl, Hq.
      destruct (clip (area ck) (bisector v (site ck))) as [[[rD |] [rE |]] rF]; try done.
      destruct Hdeg as [-> ->]. done.
    + rewrite Hnc. f_equal. symmetry. apply omap_filter_ne. by rewrite Hl.
    + destruct (cascade_total v (iteration v q st)) as (fuel0 & st2 & H).
      exists fuel0, st2.
      destruct (cascade_preserves _ _ _ _ H) as (_ & _ & _ & Hu & Hlk & He).
      split; [intros fuel Hle; by apply (cascade_fuel_mono fuel0) |].
      split; [done |]. split; [by apply Hu |].
      split; [by rewrite (Hlk k Hs) |].
      destruct (cascade_keeps_inv _ _ _ _ _ _ _ H
                  (iteration_inv v q _ _ _ _ (cascade_inv_start v st)))
        as (_ & _ & _ & ks & Hnd & Hks & Hfold).
      exists (filter (λ j, j ≠ k) ks). split; [by apply NoDup_filter |]. split.
      * intros j. rewrite list_elem_of_filter, (Hks j). tauto.
      * rewrite Hfold. f_equal. symmetry. apply omap_filter_ne. by rewrite Hl.
Qed.

(** C10. Inserting a bare site [v] is inserting the cell built from [v]
    and the default colour. The colour payload is not consulted by the
    split or the cascade: two insertions of the same site that differ in
    the colour (and in the area the inserted cell carries) either both run
    out of fuel, or return the same diagram, or return diagrams with the
    same stored cells followed by a new cell of the same area that
    differs in its colour only. *)
Theorem colour_not_consulted fuel D v a1 a2 col1 col2 :
  insert_site boundingBoxSize fuel D v =
    insert boundingBoxSize fuel D (cell_site_colour v default_colour) ∧
  match insert boundingBoxSize fuel D (Cell v a1 col1),
        insert boundingBoxSize fuel D (Cell v a2 col2) with
  | Some r1, Some r2 =>
    r1 = r2 ∨
    ∃ pre ar, cells r1 = pre ++ [cell_site_area_colour v ar col1] ∧
              cells r2 = pre ++ [cell_site_area_colour v ar col2]
  | None, None => True
  | _, _ => False
  end.
Proof.
  split; [done |]. rewrite !insert_factor. simpl.
  destruct (insert_core boundingBoxSize fuel D v) as [[cs [ar |]] |]; [| by left | done].
  destruct (set_add_cases cs (cell_site_area_colour v ar col1)) as [[H1 ->] | [H1 ->]];
    destruct (set_add_cases cs (cell_site_area_colour v ar col2)) as [[H2 ->] | [H2 ->]];
    simpl in *; try congruence.
  - by left.
  - right. by exists cs, ar.
Qed.
End WorklistContract.
End Properties.

(** * The rational instance at work *)

Section RationalFacts.
Import Rational Examples.

Lemma point_eqb_refl (p : point) : point_eqb p p = true.
Proof.
  unfold point_eqb. apply andb_true_intro. split; apply Qeq_bool_iff; reflexivity.
Qed.

(** The rational worklist honours the contract of [polygon - vector]. *)
Lemma q_psub_shrinks (P : polygon) (q : vector) (l : list vector) :
  data P = q :: l → length (data (psub P q)) < length (data P).
Proof.
  intros Hd. simpl. rewrite Hd. rewrite filter_cons_False.
  - simpl. apply Nat.lt_succ_r, length_filter.
  - by rewrite point_eqb_refl.
Qed.

Lemma first_cell_inserted :
  insert 1000 0 empty_voronoi (bare 0 0) = Some first_cell.
Proof. vm_compute. reflexivity. Qed.


Lemma three_cells_inserted :
  insert_all 1000 3 empty_voronoi three_sites = Some three_cells.
Proof. vm_compute. reflexivity. Qed.

Lemma junction_state_start :
  cascade_start three_cells (pt 100 100) = Some junction_state.
Proof. vm_compute. reflexivity. Qed.

(** C1, counterexample. For the first site (1, 0) the cell's polygon is
    the square about (1, 0): it has the corner (-999, -1000) and is not the
    square with corners (+-1000, +-1000). *)
Lemma bootstrap_not_origin_square :
  ¬ ∃ ce, insert 1000 0 empty_voronoi (bare 1 0) = Some (Voronoi [ce]) ∧
          data (area ce) ≡ₚ origin_corners.
Proof.
  intros (ce & H & Hp). vm_compute in H. injection H as <-.
  assert (Hin : pt (-999) (-1000) ∈ origin_corners).
  { rewrite <- Hp. apply list_elem_of_here. }
  apply list_elem_of_In in Hin. vm_compute in Hin.
  repeat destruct Hin as [Hin | Hin]; try discriminate Hin. done.
Qed.

(** C2, witness: the site (0, 0) inserted into [stray_site]. *)
Lemma degenerate_split_witness :
  ∃ rB, insert 1000 0 stray_site (bare 0 0) =
        Some (Voronoi (set_add (cells stray_site)
                         (cell_site_area_colour (pt 0 0) rB 0%nat))).
Proof.
  eexists.
  eapply (degenerate_split_adds_cell_directly 1000 0 stray_site (bare 0 0) 0).
  - vm_compute. reflexivity.
  - reflexivity.
  - vm_compute. reflexivity.
  - vm_compute. reflexivity.
  - vm_compute. reflexivity.
Defined.

(** C2, counterexample. Inserting (0, 0) into [stray_site] meets the
    degenerate split. The code returns at once, with the cell added to the
    collection; entering the procedure again, as section 4.3 words it, never
    returns, whatever the number of re-entries allowed. *)
Lemma degenerate_split_does_not_reenter :
  degenerate_split stray_site (pt 0 0) = true ∧
  (∃ r, length (cells r) = 2%nat ∧
        ∀ fuel, insert 1000 fuel stray_site (bare 0 0) = Some r) ∧
  (∀ depth fuel,
     insert_reentrant 1000 depth fuel stray_site (bare 0 0) ≠
     insert 1000 fuel stray_site (bare 0 0)).
Proof.
  assert (Hdeg : degenerate_split stray_site (site (bare 0 0)) = true)
    by (vm_compute; reflexivity).
  assert (H0 : ∃ r, insert 1000 0 stray_site (bare 0 0) = Some r ∧
                    length (cells r) = 2%nat).
  { eexists. split; [vm_compute; reflexivity | reflexivity]. }
  destruct H0 as (r & H0 & Hlen).
  assert (Hins : ∀ fuel, insert 1000 fuel stray_site (bare 0 0) = Some r).
  { intros fuel. apply (insert_fuel_mono 1000 0 fuel _ _ r); [lia | exact H0]. }
  split; [exact Hdeg |]. split.
  - exists r. split; [exact Hlen | exact Hins].
  - intros depth fuel. rewrite (insert_reentrant_degenerate 1000 depth fuel _ _ Hdeg).
    rewrite Hins. discriminate.
Qed.

(** C3, witness: the three sites of [three_sites]. *)
Lemma cell_count_witness :
  ∃ fuel0 (r : voronoi), ∀ fuel, (fuel0 ≤ fuel)%nat →
    insert_all 1000 fuel empty_voronoi three_sites = Some r ∧
    length (cells r) = effective_count 1000 fuel empty_voronoi three_sites.
Proof.
  apply (cell_count_counts_effective_insertions 1000 q_psub_shrinks three_sites).
Defined.

(** C3, counterexample. Of the sites (0, 0), (100, 0), (50, 0), (50, 0),
    (60, 0), all within the bounding square, four are new, so four insertions
    count as successful. The second insertion of (50, 0) re-clips the cell of
    (100, 0) to x >= 75 and adds nothing, which leaves (60, 0) in no cell: the
    diagram has three cells. Likewise (500, 0) and (-800, 0) both lie within
    the half-width 1000 of the origin, but the square of the first cell is
    centred on (500, 0) and does not contain (-800, 0): one cell, not two. *)
Lemma in_bounds_insertion_not_counted :
  (∃ r, insert_all 1000 4 empty_voronoi
          [bare 0 0; bare 100 0; bare 50 0; bare 50 0; bare 60 0] = Some r ∧
        length (cells r) = 3%nat ∧
        successful_count 1000 [] [pt 0 0; pt 100 0; pt 50 0; pt 50 0; pt 60 0] = 4%nat ∧
        length (cells r) ≠
          successful_count 1000 [] [pt 0 0; pt 100 0; pt 50 0; pt 50 0; pt 60 0]) ∧
  (∃ r, insert_all 1000 0 empty_voronoi [bare 500 0; bare (-800) 0] = Some r ∧
        length (cells r) = 1%nat ∧
        successful_count 1000 [] [pt 500 0; pt (-800) 0] = 2%nat ∧
        length (cells r) ≠ successful_count 1000 [] [pt 500 0; pt (-800) 0]).
Proof.
  split; eexists; (split; [vm_compute; reflexivity |]);
    (split; [reflexivity |]); (split; [vm_compute; reflexivity |]);
    vm_compute; discriminate.
Qed.

(** C4, witness: the site (100, 0) inserted into [first_cell]; the cell of
    (0, 0) keeps the side of x = 50 that contains (0, 0). *)
Lemma split_retains_site_side_witness :
  ∃ (kept : @polygon QSpace) (r : voronoi) fuel0,
    q_contains kept (pt 0 0) = true ∧
    (∀ fuel, (fuel0 ≤ fuel)%nat → insert 1000 fuel first_cell (bare 100 0) = Some r) ∧
    cells r !! 0%nat = Some (Cell (pt 0 0) (Polygon (data kept) 0%nat) 0%nat).
Proof.
  destruct (@split_retains_site_side QSpace QKernel 1000 q_psub_shrinks first_cell (bare 100 0) 0
              origin_cell
              (@Polygon QSpace [pt 1000 (-1000); pt 1000 1000; pt 50 (-1000); pt 50 1000] 0%nat)
              (@Polygon QSpace [pt (-1000) (-1000); pt (-1000) 1000; pt 50 (-1000); pt 50 1000] 0%nat)
              (Some (@Polygon QSpace [pt 50 (-1000); pt 50 1000] 0%nat)))
    as (kept & other & _ & Hk & _ & fuel0 & r & Hr & Hl).
  - vm_compute. reflexivity.
  - reflexivity.
  - vm_compute. reflexivity.
  - right. vm_compute. reflexivity.
  - exists kept, r, fuel0. split; [exact Hk |]. split; [exact Hr | exact Hl].
Defined.

(** C5, counterexample. Inserting (100, 100) into the diagram of the sites
    (0, 0), (100, 0), (0, 100) locates the cell of (100, 0); the first point
    popped from the worklist is (50, 50), where the three cells meet, and
    that one iteration marks (and clips) the two other cells. *)
Lemma iteration_marks_two_cells :
  insert_all 1000 3 empty_voronoi three_sites = Some three_cells ∧
  cascade_start three_cells (pt 100 100) = Some junction_state ∧
  head (data (rC junction_state)) = Some (pt 50 50) ∧
  size (newly_used (pt 100 100) (pt 50 50) junction_state) = 2%nat ∧
  ¬ (size (newly_used (pt 100 100) (pt 50 50) junction_state) ≤ 1)%nat.
Proof.
  split; [apply three_cells_inserted |]. split; [apply junction_state_start |].
  split; [reflexivity |].
  assert (H : size (newly_used (pt 100 100) (pt 50 50) junction_state) = 2%nat)
    by (vm_compute; reflexivity).
  split; [exact H | rewrite H; lia].
Qed.

(** C6, witness: the site (100, 100) inserted into [three_cells]. *)
Lemma insertion_terminates_witness :
  ∃ fuel (r : voronoi), ∀ fuel', (fuel ≤ fuel')%nat →
    insert 1000 fuel' three_cells (bare 100 100) = Some r.
Proof.
  apply (insertion_terminates 1000 q_psub_shrinks three_cells (bare 100 100)).
Defined.

(** C7, witness: the site (5000, 0) lies in no cell of [first_cell]. *)
Lemma unlocated_site_noop_witness :
  insert 1000 0 first_cell (bare 5000 0) = Some first_cell.
Proof.
  apply (unlocated_site_noop 1000 0 first_cell (bare 5000 0)).
  - discriminate.
  - intros c' Hc. apply list_elem_of_singleton in Hc as ->. vm_compute. reflexivity.
Defined.



(** C9, witness: in [junction_state] the cell of (0, 0) contains the popped
    point (50, 50), and the bisector x + y = 100 only touches it there. *)
Lemma degenerate_neighbour_clip_witness :
  (0%nat ∈ usedCells (iteration (pt 100 100) (pt 50 50) junction_state)) ∧
  st_cells (iteration (pt 100 100) (pt 50 50) junction_state) !! 0%nat =
    st_cells junction_state !! 0%nat ∧
  ∃ fuel0 st2,
    (∀ fuel, (fuel0 ≤ fuel)%nat →
       cascade fuel (pt 100 100) (iteration (pt 100 100) (pt 50 50) junction_state) =
       Some st2) ∧
    0%nat ∈ usedCells st2 ∧
    st_cells st2 !! 0%nat = st_cells junction_state !! 0%nat.
Proof.
  assert (Hl : st_cells junction_state !! 0%nat =
               Some (@Cell QSpace (pt 0 0)
                 (@Polygon QSpace [pt (-1000) (-1000); pt 50 (-1000); pt (-1000) 50; pt 50 50]
                           0%nat)
                 0%nat))
    by (vm_compute; reflexivity).
  destruct (@degenerate_neighbour_clip_skipped QSpace QKernel q_psub_shrinks
              (pt 100 100) (pt 50 50) junction_state 0
              (@Cell QSpace (pt 0 0)
                 (@Polygon QSpace [pt (-1000) (-1000); pt 50 (-1000); pt (-1000) 50; pt 50 50]
                           0%nat)
                 0%nat))
    as (_ & _ & _ & _ & H1 & _ & _ & Hdeg).
  - simpl. intros H%elem_of_singleton. discriminate H.
  - exact Hl.
  - vm_compute. reflexivity.
  - destruct Hdeg as (_ & _ & H2 & _ & fuel0 & st2 & H3 & _ & H4 & H5 & _).
    { vm_compute. exact I. }
    split; [exact H1 |]. split; [by rewrite Hl |].
    exists fuel0, st2. split; [exact H3 |]. split; [exact H4 | by rewrite Hl].
Defined.
End RationalFacts.

(** * Invariants of the insertion operator *)

Section Invariants.
Context `{K : Kernel}.
Variable boundingBoxSize : nat.

Implicit Types (D : voronoi) (c : cell) (v q u : vector) (cs : list cell)
               (st : cascade_state) (k i : nat) (P : polygon).

(** ** Point location *)

Lemma locate_from_shift cs v n :
  locate_from n cs v = (λ i, n + i) <$> locate_from 0 cs v.
Proof.
  revert n. induction cs as [| x cs IH]; intros n; simpl; [done |].
  destruct (contains (area x) v); simpl.
  - by rewrite Nat.add_0_r.
  - rewrite (IH (S n)), (IH 1). destruct (locate_from 0 cs v); simpl; [| done].
    f_equal. lia.
Qed.

(** X2. Point location answers with the first cell, in storage order, whose
    area contains the site, whatever the distances to the sites are: it
    returns [i] exactly when cell [i] contains [v] and no cell before it
    does. *)
Theorem locate_first_match cs v i :
  locate cs v = Some i ↔
  ∃ c, cs !! i = Some c ∧ contains (area c) v = true ∧
       ∀ j c', j < i → cs !! j = Some c' → contains (area c') v = false.
Proof.
  unfold locate. revert i. induction cs as [| x cs IH]; intros i; simpl.
  { split; [done | by intros (c & H & _)]. }
  destruct (contains (area x) v) eqn:Hx.
  - split.
    + intros [= <-]. exists x. split; [done |]. split; [done |]. intros j c' Hj. lia.
    + intros (c & Hl & Hc & Hfirst). destruct i as [| i]; [done |].
      exfalso. specialize (Hfirst 0 x (Nat.lt_0_succ _) eq_refl). congruence.
  - rewrite locate_from_shift. split.
    + destruct (locate_from 0 cs v) as [i' |] eqn:Hloc; [| done].
      intros [= <-]. destruct (proj1 (IH i') eq_refl) as (c & Hl & Hc & Hfirst).
      exists c. split; [done |]. split; [done |].
      intros [| j] c' Hj Hl'; simpl in Hl'; [congruence |].
      apply (Hfirst j c'); [lia | done].
    + intros (c & Hl & Hc & Hfirst). destruct i as [| i]; simpl in Hl; [congruence |].
      assert (Hloc : locate_from 0 cs v = Some i).
      { apply IH. exists c. split; [done |]. split; [done |].
        intros j c' Hj Hl'. apply (Hfirst (S j) c'); [lia | done]. }
      by rewrite Hloc.
Qed.

(** ** What an insertion does to the stored cells *)

Lemma retained_with_area v cn rA rB rd2 kept :
  clip (area cn) (bisector v (site cn)) = (Some rA, Some rB, rd2) →
  (contains rA (site cn) = true ∧ kept = rA) ∨
  (contains rA (site cn) = false ∧ contains rB (site cn) = true ∧ kept = rB) →
  retained v cn = Some (with_area cn kept).
Proof.
  intros Hclip H. unfold retained. rewrite Hclip.
  destruct H as [[-> ->] | (-> & -> & ->)]; done.
Qed.

Lemma split_and_cascade_shape fuel cs v col i cn rA rB rd2 kept other (r : voronoi) :
  cs !! i = Some cn →
  clip (area cn) (bisector v (site cn)) = (Some rA, Some rB, rd2) →
  (contains rA (site cn) = true ∧ kept = rA) ∨
  (contains rA (site cn) = false ∧ contains rB (site cn) = true ∧ kept = rB) →
  split_and_cascade fuel cs v col i kept other (from_maybe rd2) = Some r →
  ∃ cs' tail,
    cells r = cs' ++ tail ∧ length cs' = length cs ∧
    (∀ j cj, cs !! j = Some cj →
       cs' !! j = Some cj ∨ ∃ cj', retained v cj = Some cj' ∧ cs' !! j = Some cj') ∧
    (tail = [] ∨ ∃ ar, tail = [cell_site_area_colour v ar col]).
Proof.
  intros Hl Hclip Hk H. unfold split_and_cascade in H.
  destruct (cascade fuel v _) as [st |] eqn:Hc; [| done]. simpl in H. injection H as <-.
  assert (Hinv : cascade_inv v cs {[i]} other
            (CascadeState (assign_area cs i kept) {[i]} (from_maybe rd2) other)).
  { split; [done |]. split; [| split]; simpl.
    - intros j Hj. apply assign_area_lookup_ne. by apply not_elem_of_singleton in Hj.
    - intros j cj Hj. destruct (decide (j = i)) as [-> | Hne].
      + assert (cj = cn) as -> by congruence. right. exists (with_area cn kept).
        split; [by eapply retained_with_area |]. by apply assign_area_lookup.
      + left. by rewrite assign_area_lookup_ne.
    - exists []. split; [apply NoDup_nil_2 |]. split; [| done].
      intros k. split; [intros Hk'; by apply elem_of_nil in Hk' | by intros [H1 H2]]. }
  apply (cascade_keeps_inv _ _ _ _ _ _ _ Hc) in Hinv as (_ & _ & Hcl & _).
  destruct (cascade_preserves _ _ _ _ Hc) as (Hlen & _). simpl in Hlen.
  rewrite assign_area_length in Hlen.
  exists (st_cells st). simpl.
  destruct (set_add_cases (st_cells st) (cell_site_area_colour v (newCell st) col))
    as [[_ ->] | [_ ->]].
  - exists []. rewrite app_nil_r. split; [done |]. split; [done |]. split; [done | by left].
  - eexists. split; [done |]. split; [done |]. split; [done |]. right. by eexists.
Qed.

(** Every stored cell is, after the insertion, as it was or its own area
    clipped once; at most one cell follows them. *)
Lemma insert_shape fuel D c (r : voronoi) :
  insert boundingBoxSize fuel D c = Some r →
  ∃ cs' tail,
    cells r = cs' ++ tail ∧ length cs' = length (cells D) ∧
    (∀ j cj, cells D !! j = Some cj →
       cs' !! j = Some cj ∨
       ∃ cj', retained (site c) cj = Some cj' ∧ cs' !! j = Some cj') ∧
    (tail = [] ∨ ∃ ar, tail = [cell_site_area_colour (site c) ar (colour c)]).
Proof.
  unfold insert. destruct (cells D) as [| c0 cs0] eqn:HD.
  { intros [= <-]. simpl. exists [], [cell_site_area_colour (site c)
      (bounding_square boundingBoxSize (site c)) (colour c)].
    split; [done |]. split; [done |]. split; [done |]. right. by eexists. }
  cbv beta iota zeta. remember (c0 :: cs0) as cs eqn:Hcs. clear Hcs.
  assert (Hsame : ∀ tail,
    (tail = [] ∨ ∃ ar, tail = [cell_site_area_colour (site c) ar (colour c)]) →
    ∃ cs' tail',
      cs ++ tail = cs' ++ tail' ∧ length cs' = length cs ∧
      (∀ j cj, cs !! j = Some cj →
         cs' !! j = Some cj ∨
         ∃ cj', retained (site c) cj = Some cj' ∧ cs' !! j = Some cj') ∧
      (tail' = [] ∨ ∃ ar, tail' = [cell_site_area_colour (site c) ar (colour c)])).
  { intros tail Ht. exists cs, tail. split; [done |]. split; [done |].
    split; [| done]. intros j cj Hj. by left. }
  assert (Hnoop : ∃ cs' tail',
      cells D = cs' ++ tail' ∧ length cs' = length cs ∧
      (∀ j cj, cs !! j = Some cj →
         cs' !! j = Some cj ∨
         ∃ cj', retained (site c) cj = Some cj' ∧ cs' !! j = Some cj') ∧
      (tail' = [] ∨ ∃ ar, tail' = [cell_site_area_colour (site c) ar (colour c)])).
  { rewrite HD. destruct (Hsame []) as (cs' & tail' & H & Hrest); [by left |].
    rewrite app_nil_r in H. by exists cs', tail'. }
  destruct (locate cs (site c)) as [i |] eqn:Hloc; [| by intros [= <-]].
  destruct (cs !! i) as [cn |] eqn:Hl; [| done]. simpl.
  destruct (clip (area cn) (bisector (site c) (site cn))) as [[[rA |] [rB |]] rd2] eqn:Hclip;
    try (by intros [= <-]).
  destruct (contains rA (site cn)) eqn:HA.
  { apply (split_and_cascade_shape _ _ _ _ _ _ _ _ _ _ _ _ Hl Hclip). by left. }
  destruct (contains rB (site cn)) eqn:HB.
  { apply (split_and_cascade_shape _ _ _ _ _ _ _ _ _ _ _ _ Hl Hclip). by right. }
  intros [= <-]. simpl.
  destruct (set_add_cases cs (cell_site_area_colour (site c) rB (colour c)))
    as [[_ ->] | [_ ->]].
  - destruct (Hsame []) as (cs' & tail' & H & Hrest); [by left |].
    rewrite app_nil_r in H. by exists cs', tail'.
  - apply Hsame. right. by eexists.
Qed.

Lemma distinct_sites_snoc cs c :
  distinct_sites (cs ++ [c]) = distinct_sites cs && negb (has_site cs (site c)).
Proof.
  induction cs as [| x cs IH]; simpl; [done |].
  rewrite IH, existsb_app. simpl. rewrite orb_false_r.
  unfold has_site. simpl.
  destruct (existsb (λ y, veqb (site x) (site y)) cs),
    (veqb (site x) (site c)), (distinct_sites cs),
    (existsb (λ y, veqb (site y) (site c)) cs); done.
Qed.

Lemma distinct_sites_map cs cs' :
  map site cs = map site cs' → distinct_sites cs = distinct_sites cs'.
Proof.
  revert cs'. induction cs as [| x cs IH]; intros [| y cs'] Hm; simpl in *; try done.
  injection Hm as Hxy Hm. rewrite (IH _ Hm), Hxy. f_equal. f_equal.
  clear IH. revert cs' Hm. induction cs as [| a cs IH]; intros [| b cs'] Hm;
    simpl in *; try done.
  injection Hm as -> Hm. by rewrite (IH _ Hm).
Qed.

Lemma retained_same_identity v cj cj' :
  retained v cj = Some cj' → site cj' = site cj ∧ colour cj' = colour cj ∧ coloured cj'.
Proof.
  unfold retained. destruct (clip _ _) as [[[rA |] [rB |]] rd2]; try done.
  destruct (contains rA (site cj)); [by intros [= <-] |].
  destruct (contains rB (site cj)); [by intros [= <-] | done].
Qed.

Lemma insert_coloured fuel D c (r : voronoi) :
  insert boundingBoxSize fuel D c = Some r →
  Forall coloured (cells D) → Forall coloured (cells r).
Proof.
  intros Hr Hcol.
  destruct (insert_shape _ _ _ _ Hr) as (cs' & tail & -> & Hlen & Hcl & Ht).
  apply Forall_app. split.
  - apply Forall_lookup. intros j cj' Hj.
    destruct (lookup_lt_is_Some_2 (cells D) j) as [cj Hcj];
      [rewrite <- Hlen; by eapply lookup_lt_Some |].
    destruct (Hcl j cj Hcj) as [H | (cj'' & Hret & H)].
    + assert (cj' = cj) as -> by congruence.
      by apply (Forall_lookup_1 _ _ _ _ Hcol Hcj).
    + assert (cj' = cj'') as -> by congruence.
      by apply retained_same_identity in Hret as (_ & _ & ?).
  - destruct Ht as [-> | [ar ->]]; [done |]. by apply Forall_singleton.
Qed.

Lemma insert_distinct fuel D c (r : voronoi) :
  insert boundingBoxSize fuel D c = Some r →
  distinct_sites (cells D) = true → distinct_sites (cells r) = true.
Proof.
  intros Hr Hd. destruct (insert_sites _ _ _ _ _ Hr) as [Hs _].
  destruct (effective D (site c)) eqn:He.
  - assert (Hm : map site (cells r) = map site (cells D ++ [c])) by (by rewrite map_app).
    rewrite (distinct_sites_map _ _ Hm), distinct_sites_snoc, Hd. simpl.
    unfold effective in He. destruct (cells D); [done |].
    by apply andb_prop in He as [_ ->].
  - rewrite app_nil_r in Hs. by rewrite (distinct_sites_map _ _ Hs).
Qed.

(** Every cell of the returned diagram has the site and the colour of a
    stored cell or of the inserted one. *)
Lemma insert_provenance fuel D c (r : voronoi) x :
  insert boundingBoxSize fuel D c = Some r → x ∈ cells r →
  (∃ y, y ∈ cells D ∧ site x = site y ∧ colour x = colour y) ∨
  (site x = site c ∧ colour x = colour c).
Proof.
  intros Hr Hx.
  destruct (insert_shape _ _ _ _ Hr) as (cs' & tail & E & Hlen & Hcl & Ht).
  rewrite E in Hx. apply elem_of_app in Hx as [Hx | Hx].
  - left. apply list_elem_of_lookup in Hx as [j Hj].
    destruct (lookup_lt_is_Some_2 (cells D) j) as [cj Hcj];
      [rewrite <- Hlen; by eapply lookup_lt_Some |].
    exists cj. split; [by eapply list_elem_of_lookup_2 |].
    destruct (Hcl j cj Hcj) as [H | (cj'' & Hret & H)].
    + by assert (x = cj) as -> by congruence.
    + assert (x = cj'') as -> by congruence.
      by apply retained_same_identity in Hret as (? & ? & _).
  - right. destruct Ht as [-> | [ar ->]]; [by apply elem_of_nil in Hx |].
    by apply list_elem_of_singleton in Hx as ->.
Qed.

Lemma insert_all_keeps fuel cs : ∀ D (r : voronoi),
  insert_all boundingBoxSize fuel D cs = Some r →
  distinct_sites (cells D) = true → Forall coloured (cells D) →
  distinct_sites (cells r) = true ∧ Forall coloured (cells r) ∧
  ∀ x, x ∈ cells r →
    (∃ y, y ∈ cells D ∧ site x = site y ∧ colour x = colour y) ∨
    (∃ c, c ∈ cs ∧ site x = site c ∧ colour x = colour c).
Proof.
  induction cs as [| c cs IH]; intros D r H Hd Hc; simpl in H.
  { injection H as <-. split; [done |]. split; [done |]. intros x Hx. left. by exists x. }
  destruct (insert boundingBoxSize fuel D c) as [D' |] eqn:Hi; [| done]. simpl in H.
  destruct (IH _ _ H (insert_distinct _ _ _ _ Hi Hd) (insert_coloured _ _ _ _ Hi Hc))
    as (Hd' & Hc' & Hp).
  split; [done |]. split; [done |]. intros x Hx.
  destruct (Hp x Hx) as [(y & Hy & Hs & Hcol) | (c' & Hc'' & Hs & Hcol)].
  - destruct (insert_provenance _ _ _ _ _ Hi Hy) as [(z & Hz & Hs' & Hcol') | [Hs' Hcol']].
    + left. exists z. split; [done |]. split; congruence.
    + right. exists c. split; [apply list_elem_of_here |]. split; congruence.
  - right. exists c'. split; [by apply list_elem_of_further | done].
Qed.

(** ** The cells the cascade marks *)

Lemma omap_ext_in {A B} (f g : A → option B) (l : list A) :
  (∀ x, x ∈ l → f x = g x) → omap f l = omap g l.
Proof.
  induction l as [| x l IH]; intros H; [done |].
  assert (Hc : ∀ (h : A → option B) y l', omap h (y :: l') =
                 match h y with Some z => z :: omap h l' | None => omap h l' end)
    by done.
  rewrite !Hc, (H x) by apply list_elem_of_here.
  rewrite IH; [done |]. intros y Hy. apply H. by apply list_elem_of_further.
Qed.

Lemma cascade_marks_spec fuel v : ∀ st st',
  cascade fuel v st = Some st' →
  NoDup (cascade_marks fuel v st) ∧
  (∀ k, k ∈ cascade_marks fuel v st ↔ k ∈ usedCells st' ∧ k ∉ usedCells st) ∧
  newCell st' =
    fold_left punion (omap (λ k, st_cells st !! k ≫= ceded v) (cascade_marks fuel v st))
              (newCell st).
Proof.
  induction fuel as [| fuel IH]; intros st st' H.
  - rewrite cascade_0 in H. simpl. destruct (data (rC st)); [| done].
    injection H as <-. split; [apply NoDup_nil_2 |]. split; [| done].
    intros k. split; [intros Hk; by apply elem_of_nil in Hk | by intros [H1 H2]].
  - rewrite cascade_S in H. simpl. destruct (data (rC st)) as [| q l].
    { injection H as <-. split; [apply NoDup_nil_2 |]. split; [| done].
      intros k. split; [intros Hk; by apply elem_of_nil in Hk | by intros [H1 H2]]. }
    destruct (IH _ _ H) as (Hnd & Hks & Hnc). clear IH.
    destruct (iteration_effect v q st) as (Hu & Hc & Hn & _).
    destruct (cascade_preserves _ _ _ _ H) as (_ & _ & _ & Hsub & _).
    assert (Hin : ∀ k, k ∈ usedCells (iteration v q st) ↔
                       k ∈ usedCells st ∨ k ∈ marked_by q st).
    { intros k. by rewrite Hu, elem_of_union, elem_of_list_to_set. }
    split; [| split].
    + apply NoDup_app. split; [| split; [| done]].
      * unfold marked_by. apply NoDup_filter, NoDup_seq.
      * intros k Hk Hk'. apply Hks in Hk' as [_ Hk']. apply Hk', Hin. by right.
    + intros k. rewrite elem_of_app, (Hks k), Hin. split.
      * intros [Hk | [Hk1 Hk2]].
        -- split; [apply Hsub, Hin; by right |]. by apply marked_by_iff in Hk as [Hk _].
        -- split; [done |]. intros Hk. apply Hk2. by left.
      * intros [Hk1 Hk2]. destruct (decide (k ∈ marked_by q st)) as [Hm | Hm]; [by left |].
        right. split; [done |]. by intros [Hk | Hk].
    + rewrite Hnc, Hn, omap_app, fold_left_app. f_equal. apply omap_ext_in.
      intros k Hk. apply Hks in Hk as [_ Hk]. f_equal.
      assert (Hm : k ∉ marked_by q st).
      { intros Hm. apply Hk, Hin. by right. }
      destruct (st_cells st !! k) as [ck |] eqn:Hl.
      * rewrite (Hc k ck Hl). by rewrite bool_decide_eq_false_2.
      * apply lookup_ge_None. rewrite iteration_length. by apply lookup_ge_None.
Qed.

Section Returning.
(** The contract of [polygon - vector] on the worklist, which makes the
    insertion return. *)
Hypothesis psub_shrinks : ∀ P q l,
  data P = q :: l → length (data (psub P q)) < length (data P).

(** X1. If every stored cell's area carries the cell's colour, so does
    every cell of the diagram the insertion returns: each area the
    insertion assigns, and the area of the cell it adds, is given the
    colour of its cell. *)
Theorem insertion_keeps_areas_coloured D c :
  Forall coloured (cells D) →
  ∃ fuel0 (r : voronoi),
    (∀ fuel, fuel0 ≤ fuel → insert boundingBoxSize fuel D c = Some r) ∧
    Forall coloured (cells r).
Proof using psub_shrinks.
  intros Hcol. destruct (insert_total boundingBoxSize psub_shrinks D c) as (fuel0 & r & Hr).
  exists fuel0, r. split; [done |].
  apply (insert_coloured fuel0 D c r); [by apply Hr | done].
Qed.

(** X4. After an insertion of the site [v], every cell that was stored is
    still at its index and either is exactly as it was, or has as its area
    one sub-polygon of its own former area, clipped once against the
    bisector of [v] and its site: the first of the two sub-polygons that
    contains its site. *)
Theorem stored_cells_kept_or_clipped_once D c :
  ∃ fuel0 (r : voronoi),
    (∀ fuel, fuel0 ≤ fuel → insert boundingBoxSize fuel D c = Some r) ∧
    ∀ j cj, cells D !! j = Some cj →
      cells r !! j = Some cj ∨
      ∃ cj', retained (site c) cj = Some cj' ∧ cells r !! j = Some cj'.
Proof using psub_shrinks.
  destruct (insert_total boundingBoxSize psub_shrinks D c) as (fuel0 & r & Hr).
  exists fuel0, r. split; [done |].
  destruct (insert_shape _ _ _ _ (Hr fuel0 (Nat.le_refl _)))
    as (cs' & tail & -> & Hlen & Hcl & Ht).
  intros j cj Hj. rewrite lookup_app_l; [by apply Hcl |].
  rewrite Hlen. by eapply lookup_lt_Some.
Qed.

(** X5. For a point-in-polygon test that does not look at the colour of
    the polygon: if every stored cell's area contains the cell's own site,
    then after an insertion every one of these cells still contains its
    site. (The added cell is not covered: on the degenerate split it gets a
    sub-polygon whatever it contains.) *)
Theorem stored_cells_keep_their_sites D c :
  (∀ P col v, contains (Polygon (data P) col) v = contains P v) →
  Forall (λ cj, contains (area cj) (site cj) = true) (cells D) →
  ∃ fuel0 (r : voronoi),
    (∀ fuel, fuel0 ≤ fuel → insert boundingBoxSize fuel D c = Some r) ∧
    ∀ j cj', j < length (cells D) → cells r !! j = Some cj' →
      contains (area cj') (site cj') = true.
Proof using psub_shrinks.
  intros Hblind Hin. destruct (insert_total boundingBoxSize psub_shrinks D c) as (fuel0 & r & Hr).
  exists fuel0, r. split; [done |].
  destruct (insert_shape _ _ _ _ (Hr fuel0 (Nat.le_refl _)))
    as (cs' & tail & -> & Hlen & Hcl & Ht).
  intros j cj' Hj Hl. rewrite lookup_app_l in Hl by lia.
  destruct (lookup_lt_is_Some_2 (cells D) j Hj) as [cj Hcj].
  destruct (Hcl j cj Hcj) as [H | (cj'' & Hret & H)].
  - assert (cj' = cj) as -> by congruence.
    by apply (Forall_lookup_1 _ _ _ _ Hin Hcj).
  - assert (cj' = cj'') as -> by congruence. unfold retained in Hret.
    destruct (clip _ _) as [[[rA |] [rB |]] rd2]; try done.
    destruct (contains rA (site cj)) eqn:HA.
    { injection Hret as <-. simpl. by rewrite Hblind. }
    destruct (contains rB (site cj)) eqn:HB; [| done].
    injection Hret as <-. simpl. by rewrite Hblind.
Qed.

(** X6. If no two stored cells have equal sites, no two cells of the
    diagram the insertion returns have equal sites: the sites of the stored
    cells stay as they are and the new cell is only added when no stored
    cell has its site. *)
Theorem insertion_keeps_sites_distinct D c :
  distinct_sites (cells D) = true →
  ∃ fuel0 (r : voronoi),
    (∀ fuel, fuel0 ≤ fuel → insert boundingBoxSize fuel D c = Some r) ∧
    distinct_sites (cells r) = true.
Proof using psub_shrinks.
  intros Hd. destruct (insert_total boundingBoxSize psub_shrinks D c) as (fuel0 & r & Hr).
  exists fuel0, r. split; [done |].
  apply (insert_distinct fuel0 D c r); [by apply Hr | done].
Qed.


(** X8. The area the cascade builds for the new cell is the area it
    started with, united in turn with what the cells marked during the
    cascade have ceded. The cells that contribute, [cascade_marks], are
    exactly the cells marked during the cascade, each of them once and in
    the order in which they are marked; each gives the side of its original
    area that it does not retain (nothing, when its clip is degenerate). *)
Theorem new_cell_unites_ceded_sides v st :
  ∃ fuel0 st',
    (∀ fuel, fuel0 ≤ fuel → cascade fuel v st = Some st') ∧
    NoDup (cascade_marks fuel0 v st) ∧
    (∀ k, k ∈ cascade_marks fuel0 v st ↔ k ∈ usedCells st' ∧ k ∉ usedCells st) ∧
    newCell st' =
      fold_left punion
        (omap (λ k, st_cells st !! k ≫= ceded v) (cascade_marks fuel0 v st))
        (newCell st).
Proof using psub_shrinks.
  destruct (cascade_total psub_shrinks v st) as (fuel0 & st' & H).
  exists fuel0, st'. split.
  - intros fuel Hle. by apply (cascade_fuel_mono fuel0).
  - by apply cascade_marks_spec.
Qed.
(** X12. In every diagram built from the empty one by a sequence of
    insertions, no two cells have equal sites, every area carries the
    colour of its cell, and every cell has the site and the colour of one of
    the inserted cells. *)
Theorem built_diagrams_are_well_formed (cs : list cell) :
  ∃ fuel0 (r : voronoi),
    (∀ fuel, fuel0 ≤ fuel → insert_all boundingBoxSize fuel empty_voronoi cs = Some r) ∧
    distinct_sites (cells r) = true ∧
    Forall coloured (cells r) ∧
    ∀ x, x ∈ cells r → ∃ c, c ∈ cs ∧ site x = site c ∧ colour x = colour c.
Proof using psub_shrinks.
  destruct (insert_all_total boundingBoxSize psub_shrinks cs empty_voronoi)
    as (fuel0 & r & Hr).
  exists fuel0, r. split; [done |].
  destruct (insert_all_keeps _ _ _ _ (Hr fuel0 (Nat.le_refl _)) eq_refl (Forall_nil_2 _))
    as (Hd & Hc & Hp).
  split; [done |]. split; [done |]. intros x Hx.
  destruct (Hp x Hx) as [(y & Hy & _) | H]; [| done].
  by apply elem_of_nil in Hy.
Qed.
End Returning.

(** X3. When the clip of the located cell yields fewer than two
    sub-polygons, the insertion returns the diagram unchanged: the site was
    located, yet no cell is added and none is touched. *)
Theorem unsplit_located_cell_noop fuel D c i cn :
  locate (cells D) (site c) = Some i →
  cells D !! i = Some cn →
  match clip (area cn) (bisector (site c) (site cn)) with
  | (Some _, Some _, _) => False
  | _ => True
  end →
  insert boundingBoxSize fuel D c = Some D.
Proof.
  intros Hloc Hl Hclip. unfold insert.
  destruct (cells D) as [| c0 cs0] eqn:HD; [done |].
  cbv beta iota zeta. rewrite Hloc, Hl. simpl.
  by destruct (clip (area cn) (bisector (site c) (site cn))) as [[[rA |] [rB |]] rd2].
Qed.
End Invariants.

(** * The model factory *)

Section FactoryProperties.
Variables modelDimensionMinimum modelDimensionMaximum : nat → nat → nat.
Variables renderDimensionMinimum renderDimensionMaximum : nat → nat → nat.

Abbreviation set := (Factory.set modelDimensionMinimum modelDimensionMaximum
                             renderDimensionMinimum renderDimensionMaximum).
Abbreviation set_body := (Factory.set_body modelDimensionMinimum modelDimensionMaximum
                                       renderDimensionMinimum renderDimensionMaximum).

(** The primary template is met at depths [d >= 2] and [e >= 3] only. *)
Lemma set_primary d e dims rdims :
  set (S (S d)) (S (S (S e))) dims rdims =
  set_body (S (S d)) (S (S (S e))) dims rdims
           (set (S d) (S (S (S e))) dims rdims) (set (S (S d)) (S (S e)) dims rdims).
Proof. reflexivity. Qed.

(** Induction along the instantiations that [set] goes through. *)
Lemma set_outcome_ind (R : nat → nat → Factory.outcome → Prop) dims rdims :
  (∀ d e, R d e (Factory.ret (dims =? 0))) →
  (∀ d e, R d e (Factory.ret (rdims =? 0))) →
  (∀ d e, R d e None) →
  (∀ d e od oe, R (S d) (S (S (S e))) od → R (S (S d)) (S (S e)) oe →
     R (S (S d)) (S (S (S e))) (set_body (S (S d)) (S (S (S e))) dims rdims od oe)) →
  ∀ d e, R d e (set d e dims rdims).
Proof.
  intros Hd Hr Hn Hb. induction d as [| d IHd]; intros e.
  { simpl. destruct (e =? 2); [apply Hr | apply Hn]. }
  induction e as [| e IHe].
  { simpl. destruct (d =? 0); [apply Hd | apply Hn]. }
  destruct d as [| d].
  { simpl. destruct (e =? 1); [apply Hn | apply Hd]. }
  destruct e as [| [| e]].
  - apply Hn.
  - apply Hr.
  - rewrite set_primary. apply Hb; [apply IHd | apply IHe].
Qed.

Lemma after_Some log o b l :
  Factory.after log o = Some (b, l) → ∃ l', o = Some (b, l') ∧ l = log ++ l'.
Proof.
  destruct o as [[b' l'] |]; simpl; [| done]. intros [= <- <-]. by exists l'.
Qed.

Lemma discard_then_Some a o b l :
  Factory.discard_then a o = Some (b, l) →
  ∃ ba la lo, a = Some (ba, la) ∧ o = Some (b, lo) ∧ l = la ++ lo.
Proof.
  destruct a as [[ba la] |]; simpl; [| done]. intros H.
  apply after_Some in H as (lo & -> & ->). by exists ba, la, lo.
Qed.

(** X9. The functor is run only for depths that the model template admits
    and that answer the request: every pair [(d', e')] it is run for lies
    within the depths the recursion started from, within the model's and the
    renderer's minimum and maximum, and has [d' = dims] unless [dims] is [0]
    and [e' = rdims] unless [rdims] is [0]. *)
Theorem functor_runs_within_constraints d e dims rdims b log :
  Factory.set modelDimensionMinimum modelDimensionMaximum
              renderDimensionMinimum renderDimensionMaximum d e dims rdims = Some (b, log) →
  Forall (λ p,
    p.1 ≤ d ∧ p.2 ≤ e ∧
    modelDimensionMinimum p.1 p.2 ≤ p.1 ∧
    (modelDimensionMaximum p.1 p.2 = 0 ∨ p.1 ≤ modelDimensionMaximum p.1 p.2) ∧
    renderDimensionMinimum p.1 p.2 ≤ p.2 ∧
    (renderDimensionMaximum p.1 p.2 = 0 ∨ p.2 ≤ renderDimensionMaximum p.1 p.2) ∧
    (dims = 0 ∨ p.1 = dims) ∧ (rdims = 0 ∨ p.2 = rdims)) log.
Proof.
  revert b log.
  apply (set_outcome_ind (λ d e o, ∀ b log, o = Some (b, log) → Forall (λ p,
    p.1 ≤ d ∧ p.2 ≤ e ∧
    modelDimensionMinimum p.1 p.2 ≤ p.1 ∧
    (modelDimensionMaximum p.1 p.2 = 0 ∨ p.1 ≤ modelDimensionMaximum p.1 p.2) ∧
    renderDimensionMinimum p.1 p.2 ≤ p.2 ∧
    (renderDimensionMaximum p.1 p.2 = 0 ∨ p.2 ≤ renderDimensionMaximum p.1 p.2) ∧
    (dims = 0 ∨ p.1 = dims) ∧ (rdims = 0 ∨ p.2 = rdims)) log)).
  - intros ? ? b log [= <- <-]. constructor.
  - intros ? ? b log [= <- <-]. constructor.
  - done.
  - clear d e. intros d e od oe IHd IHe b log. unfold Factory.set_body.
    assert (Wd : ∀ b l, od = Some (b, l) → Forall (λ p,
      p.1 ≤ S (S d) ∧ p.2 ≤ S (S (S e)) ∧
      modelDimensionMinimum p.1 p.2 ≤ p.1 ∧
      (modelDimensionMaximum p.1 p.2 = 0 ∨ p.1 ≤ modelDimensionMaximum p.1 p.2) ∧
      renderDimensionMinimum p.1 p.2 ≤ p.2 ∧
      (renderDimensionMaximum p.1 p.2 = 0 ∨ p.2 ≤ renderDimensionMaximum p.1 p.2) ∧
      (dims = 0 ∨ p.1 = dims) ∧ (rdims = 0 ∨ p.2 = rdims)) l).
    { intros b' l H. eapply Forall_impl; [by eapply IHd |].
      intros p (? & ? & ?). split; [lia |]. split; [lia | done]. }
    assert (We : ∀ b l, oe = Some (b, l) → Forall (λ p,
      p.1 ≤ S (S d) ∧ p.2 ≤ S (S (S e)) ∧
      modelDimensionMinimum p.1 p.2 ≤ p.1 ∧
      (modelDimensionMaximum p.1 p.2 = 0 ∨ p.1 ≤ modelDimensionMaximum p.1 p.2) ∧
      renderDimensionMinimum p.1 p.2 ≤ p.2 ∧
      (renderDimensionMaximum p.1 p.2 = 0 ∨ p.2 ≤ renderDimensionMaximum p.1 p.2) ∧
      (dims = 0 ∨ p.1 = dims) ∧ (rdims = 0 ∨ p.2 = rdims)) l).
    { intros b' l H. eapply Forall_impl; [by eapply IHe |].
      intros p (? & ? & ?). split; [lia |]. split; [lia | done]. }
    clear IHd IHe.
    destruct (S (S d) <? _) eqn:H1; [intros [= <- <-]; constructor |].
    destruct (0 <? modelDimensionMaximum _ _) eqn:H2a;
      destruct (modelDimensionMaximum _ _ <? S (S d)) eqn:H2b; cbn [andb]; try (apply Wd).
    all: destruct (S (S (S e)) <? _) eqn:H3; [intros [= <- <-]; constructor |].
    all: destruct (0 <? renderDimensionMaximum _ _) eqn:H4a;
      destruct (renderDimensionMaximum _ _ <? S (S (S e))) eqn:H4b; cbn [andb]; try (apply We).
    all: apply Nat.ltb_ge in H1; apply Nat.ltb_ge in H3.
    all: try apply Nat.ltb_ge in H2a; try apply Nat.ltb_ge in H2b.
    all: try apply Nat.ltb_ge in H4a; try apply Nat.ltb_ge in H4b.
    all: assert (Hhere : dims = 0 ∨ S (S d) = dims → rdims = 0 ∨ S (S (S e)) = rdims →
           (λ p : nat * nat,
             p.1 ≤ S (S d) ∧ p.2 ≤ S (S (S e)) ∧
             modelDimensionMinimum p.1 p.2 ≤ p.1 ∧
             (modelDimensionMaximum p.1 p.2 = 0 ∨ p.1 ≤ modelDimensionMaximum p.1 p.2) ∧
             renderDimensionMinimum p.1 p.2 ≤ p.2 ∧
             (renderDimensionMaximum p.1 p.2 = 0 ∨ p.2 ≤ renderDimensionMaximum p.1 p.2) ∧
             (dims = 0 ∨ p.1 = dims) ∧ (rdims = 0 ∨ p.2 = rdims)) (S (S d), S (S (S e))))
      by (intros ? ?; simpl; repeat split; try done; lia).
    all: destruct (rdims =? 0) eqn:Hr0;
      [apply Nat.eqb_eq in Hr0 | apply Nat.eqb_neq in Hr0].
    all: try (destruct (dims =? 0) eqn:Hd0;
      [apply Nat.eqb_eq in Hd0 | apply Nat.eqb_neq in Hd0]).
    all: try (destruct (S (S (S e)) =? rdims) eqn:Her;
      [apply Nat.eqb_eq in Her | apply Nat.eqb_neq in Her]).
    all: try (destruct (dims =? 0) eqn:Hd0;
      [apply Nat.eqb_eq in Hd0 | apply Nat.eqb_neq in Hd0]).
    all: try (destruct (S (S d) =? dims) eqn:Hdd;
      [apply Nat.eqb_eq in Hdd | apply Nat.eqb_neq in Hdd]).
    all: try (destruct (S (S d) <? dims) eqn:Hlt).
    all: try (destruct (S (S (S e)) <? rdims) eqn:Hlr).
    all: try (intros [= <- <-]; constructor).
    all: try (apply Wd).
    all: try (apply We).
    all: intros H; apply after_Some in H as (l' & H & ->).
    all: try (apply discard_then_Some in H as (ba & la & lo & Ha & Ho & ->)).
    all: apply Forall_cons; split; [apply Hhere; auto |].
    all: try (apply Forall_app; split).
    all: eauto.
Qed.

(** What [set] returns when nothing or both depths were requested, and that
    no functor call is left once the render depth is below the requested
    one. *)
Lemma set_request d e dims rdims b log :
  set d e dims rdims = Some (b, log) →
  (dims = 0 → rdims = 0 → b = true) ∧
  (dims ≠ 0 → rdims ≠ 0 → b = false ∧ length log ≤ 1 ∧ (e < rdims → log = [])).
Proof.
  revert b log.
  apply (set_outcome_ind (λ d e o, ∀ b log, o = Some (b, log) →
    (dims = 0 → rdims = 0 → b = true) ∧
    (dims ≠ 0 → rdims ≠ 0 → b = false ∧ length log ≤ 1 ∧ (e < rdims → log = [])))).
  - intros ? ? b log [= <- <-]. split.
    + by intros -> _.
    + intros Hd _. apply Nat.eqb_neq in Hd. rewrite Hd. simpl. split; [done |]. split; [lia | done].
  - intros ? ? b log [= <- <-]. split.
    + by intros _ ->.
    + intros _ Hr. apply Nat.eqb_neq in Hr. rewrite Hr. simpl. split; [done |]. split; [lia | done].
  - done.
  - clear d e. intros d e od oe IHd IHe b log. unfold Factory.set_body.
    assert (Wd : ∀ b l, od = Some (b, l) →
      (dims = 0 → rdims = 0 → b = true) ∧
      (dims ≠ 0 → rdims ≠ 0 →
         b = false ∧ length l ≤ 1 ∧ (S (S (S e)) < rdims → l = []))) by exact IHd.
    assert (We : ∀ b l, oe = Some (b, l) →
      (dims = 0 → rdims = 0 → b = true) ∧
      (dims ≠ 0 → rdims ≠ 0 →
         b = false ∧ length l ≤ 1 ∧ (S (S (S e)) ≤ rdims → l = []))).
    { intros b' l Hl. destruct (IHe _ _ Hl) as [T F]. split; [done |].
      intros Hd Hr. destruct (F Hd Hr) as (? & ? & Hn). split; [done |]. split; [done |].
      intros ?. apply Hn. lia. }
    assert (Wl : ∀ b0, (b0 = (dims =? 0) ∨ b0 = (rdims =? 0)) →
      (dims = 0 → rdims = 0 → b0 = true) ∧
      (dims ≠ 0 → rdims ≠ 0 →
         b0 = false ∧ length ([] : list (nat * nat)) ≤ 1 ∧
         (S (S (S e)) < rdims → ([] : list (nat * nat)) = []))).
    { intros b0 Hb0. split.
      - intros -> ->. by destruct Hb0 as [-> | ->].
      - intros Hd%Nat.eqb_neq Hr%Nat.eqb_neq. rewrite Hd, Hr in Hb0.
        split; [by destruct Hb0 |]. split; [simpl; lia | done]. }
    assert (Wde : ∀ b l, od = Some (b, l) →
      (dims = 0 → rdims = 0 → b = true) ∧
      (dims ≠ 0 → rdims ≠ 0 →
         b = false ∧ length l ≤ 1 ∧ (S (S (S e)) < rdims → l = []))) by exact Wd.
    assert (Wee : ∀ b l, oe = Some (b, l) →
      (dims = 0 → rdims = 0 → b = true) ∧
      (dims ≠ 0 → rdims ≠ 0 →
         b = false ∧ length l ≤ 1 ∧ (S (S (S e)) < rdims → l = []))).
    { intros b' l Hl. destruct (We _ _ Hl) as [T F]. split; [done |].
      intros Hd Hr. destruct (F Hd Hr) as (? & ? & Hn). split; [done |]. split; [done |].
      intros ?. apply Hn. lia. }
    clear IHd IHe.
    destruct (S (S d) <? _); [intros [= <- <-]; apply Wl; by left |].
    destruct ((0 <? modelDimensionMaximum _ _) && _); [apply Wde |].
    destruct (S (S (S e)) <? _); [intros [= <- <-]; apply Wl; by right |].
    destruct ((0 <? renderDimensionMaximum _ _) && _); [apply Wee |].
    destruct (rdims =? 0) eqn:Hr0;
      [apply Nat.eqb_eq in Hr0 | apply Nat.eqb_neq in Hr0].
    + destruct (dims =? 0) eqn:Hd0;
        [apply Nat.eqb_eq in Hd0 | apply Nat.eqb_neq in Hd0].
      * intros H. apply after_Some in H as (l' & H & ->).
        apply discard_then_Some in H as (ba & la & lo & Ha & Ho & ->).
        split; [| done]. by apply (Wd _ _ Ho).
      * destruct (S (S d) =? dims).
        { intros H. apply after_Some in H as (l' & H & ->). split; [done | done]. }
        destruct (S (S d) <? dims); [| intros H; split; [done | done]].
        intros [= <- <-]. split; [done | done].
    + destruct (S (S (S e)) =? rdims) eqn:Her;
        [apply Nat.eqb_eq in Her | apply Nat.eqb_neq in Her].
      * destruct (dims =? 0) eqn:Hd0;
          [apply Nat.eqb_eq in Hd0 | apply Nat.eqb_neq in Hd0].
        { intros H. split; [done | done]. }
        destruct (S (S d) =? dims).
        { intros H. apply after_Some in H as (l' & H & ->).
          split; [done |]. intros _ _. destruct (We _ _ H) as [_ F].
          destruct (F Hd0 Hr0) as (-> & _ & Hn). rewrite Hn by lia.
          split; [done |]. split; [simpl; lia | intros; lia]. }
        destruct (S (S d) <? dims); [| apply Wde].
        intros [= <- <-]. apply Wl. by left.
      * destruct (S (S (S e)) <? rdims) eqn:Hlr; [| ].
        { intros [= <- <-]. apply Wl. by right. }
        apply Nat.ltb_ge in Hlr. intros H. destruct (We _ _ H) as [T F].
        split; [done |]. intros Hd Hr. destruct (F Hd Hr) as (? & ? & _).
        split; [done |]. split; [done |]. intros; lia.
Qed.

Lemma set_body_defined d e dims rdims od oe :
  (∃ b l, od = Some (b, l)) → (∃ b l, oe = Some (b, l)) →
  ∃ b l, set_body d e dims rdims od oe = Some (b, l).
Proof.
  intros (bd & ld & ->) (be & le & ->). unfold Factory.set_body.
  repeat match goal with
         | |- context [if ?t then _ else _] => destruct t
         end; simpl; by eexists _, _.
Qed.

(** Where the primary template or one of the specialisations applies, [set]
    is defined. *)
Lemma set_defined dims rdims : ∀ d e,
  (1 ≤ d ∧ 3 ≤ e) ∨ (2 ≤ d ∧ 2 ≤ e) → ∃ b log, set d e dims rdims = Some (b, log).
Proof.
  induction d as [| d IHd]; intros e H; [lia |].
  induction e as [| e IHe]; [lia |].
  destruct d as [| d].
  { simpl. destruct e as [| [| e]]; [lia | lia |]. by eexists _, _. }
  destruct e as [| [| e]]; [lia | by eexists _, _ |].
  rewrite set_primary. apply set_body_defined; [apply IHd | apply IHe]; lia.
Qed.

(** X10. What [set] returns tells only what was requested, not whether the
    functor was run: it is [true] whenever neither depth was requested
    ([dims = rdims = 0]), and [false] whenever both were, in which case the
    functor was run at most once. *)
Theorem set_result_by_request d e dims rdims b log :
  Factory.set modelDimensionMinimum modelDimensionMaximum
              renderDimensionMinimum renderDimensionMaximum d e dims rdims = Some (b, log) →
  (dims = 0 → rdims = 0 → b = true) ∧
  (dims ≠ 0 → rdims ≠ 0 → b = false ∧ length log ≤ 1).
Proof.
  intros H. destruct (set_request _ _ _ _ _ _ H) as [Hnone Hboth].
  split; [exact Hnone |]. intros Hd Hr.
  destruct (Hboth Hd Hr) as (Hb & Hlen & _). by split.
Qed.

(** X13. A request for the model depth [dims] and the render depth
    [rdims] that lies within the depths the recursion starts from, and
    within the constraints of every instance between the two, is served:
    the functor is run exactly once, for [(dims, rdims)]. Even then [set]
    returns [false]. *)
Theorem request_within_constraints_served_once dims rdims : ∀ d e,
  2 ≤ dims → dims ≤ d → 3 ≤ rdims → rdims ≤ e →
  (∀ d' e', dims ≤ d' ≤ d → rdims ≤ e' ≤ e →
     modelDimensionMinimum d' e' ≤ dims ∧
     (modelDimensionMaximum d' e' = 0 ∨ dims ≤ modelDimensionMaximum d' e') ∧
     renderDimensionMinimum d' e' ≤ rdims ∧
     (renderDimensionMaximum d' e' = 0 ∨ rdims ≤ renderDimensionMaximum d' e')) →
  Factory.set modelDimensionMinimum modelDimensionMaximum
              renderDimensionMinimum renderDimensionMaximum d e dims rdims =
  Some (false, [(dims, rdims)]).
Proof.
  intros d e. remember ((d - dims) + (e - rdims)) as n eqn:Hn.
  revert d e Hn. induction n as [n IH] using lt_wf_ind.
  intros d e Hn Hd2 Hd He3 He Hc.
  destruct d as [| [| d]]; [lia | lia |]. destruct e as [| [| [| e]]]; [lia | lia | lia |].
  rewrite set_primary. unfold Factory.set_body.
  destruct (Hc (S (S d)) (S (S (S e))) ltac:(lia) ltac:(lia)) as (C1 & C2 & C3 & C4).
  assert (Hdown_d : dims < S (S d) →
    set (S d) (S (S (S e))) dims rdims = Some (false, [(dims, rdims)])).
  { intros Hlt. apply (IH (S d - dims + (S (S (S e)) - rdims))); try lia.
    intros d' e' ? ?. apply Hc; lia. }
  assert (Hdown_e : rdims < S (S (S e)) →
    set (S (S d)) (S (S e)) dims rdims = Some (false, [(dims, rdims)])).
  { intros Hlt. apply (IH (S (S d) - dims + (S (S e) - rdims))); try lia.
    intros d' e' ? ?. apply Hc; lia. }
  destruct (S (S d) <? _) eqn:T1; [apply Nat.ltb_lt in T1; lia |].
  destruct (0 <? modelDimensionMaximum _ _) eqn:T2a;
    destruct (modelDimensionMaximum _ _ <? S (S d)) eqn:T2b; cbn [andb].
  { apply Nat.ltb_lt in T2a, T2b. apply Hdown_d. lia. }
  all: destruct (S (S (S e)) <? _) eqn:T3; [apply Nat.ltb_lt in T3; lia |].
  all: destruct (0 <? renderDimensionMaximum _ _) eqn:T4a;
    destruct (renderDimensionMaximum _ _ <? S (S (S e))) eqn:T4b; cbn [andb];
    try (apply Nat.ltb_lt in T4a, T4b; apply Hdown_e; lia).
  all: destruct (rdims =? 0) eqn:Tr; [apply Nat.eqb_eq in Tr; lia |].
  all: destruct (S (S (S e)) =? rdims) eqn:Te;
    [apply Nat.eqb_eq in Te | apply Nat.eqb_neq in Te].
  all: try (destruct (S (S (S e)) <? rdims) eqn:Tl; [apply Nat.ltb_lt in Tl; lia |];
            apply Hdown_e; lia).
  all: destruct (dims =? 0) eqn:Td; [apply Nat.eqb_eq in Td; lia |].
  all: destruct (S (S d) =? dims) eqn:Tdd;
    [apply Nat.eqb_eq in Tdd | apply Nat.eqb_neq in Tdd].
  all: try (destruct (S (S d) <? dims) eqn:Tdl; [apply Nat.ltb_lt in Tdl; lia |];
            apply Hdown_d; lia).
  all: destruct (set_defined dims rdims (S (S d)) (S (S e)) ltac:(lia)) as (b' & l' & Hs).
  all: destruct (set_request _ _ _ _ _ _ Hs) as [_ Hboth].
  all: destruct (Hboth ltac:(lia) ltac:(lia)) as (-> & _ & Hnil).
  all: rewrite Hs, Hnil by lia; simpl; by rewrite Tdd, Te.
Qed.
End FactoryProperties.

(** * Transformation matrices *)

Section TransformationProperties.
Variable Q : Type.
Variables zero one : Q.

Lemma fill_row (entry : nat → nat → Q) i js : ∀ (M : Transformation.matrix Q) i' j',
  fold_left (λ M j, Transformation.assign Q M i j (entry i j)) js M i' j' =
  if (i' =? i) && existsb (Nat.eqb j') js then entry i j' else M i' j'.
Proof.
  induction js as [| j0 js IH]; intros M i' j'; simpl.
  { by rewrite andb_false_r. }
  rewrite IH. unfold Transformation.assign.
  destruct (i' =? i); simpl; [| done].
  destruct (existsb (Nat.eqb j') js); [by rewrite orb_true_r |].
  rewrite orb_false_r. destruct (j' =? j0) eqn:E; [| done].
  by apply Nat.eqb_eq in E as ->.
Qed.

Lemma fill_rows (entry : nat → nat → Q) js rows : ∀ (M : Transformation.matrix Q) i' j',
  fold_left (λ M i, fold_left (λ M j, Transformation.assign Q M i j (entry i j)) js M) rows M
    i' j' =
  if existsb (Nat.eqb i') rows && existsb (Nat.eqb j') js then entry i' j' else M i' j'.
Proof.
  induction rows as [| i0 rows IH]; intros M i' j'; simpl; [done |].
  rewrite IH, fill_row.
  destruct (existsb (Nat.eqb i') rows); simpl.
  - rewrite orb_true_r. simpl. destruct (existsb (Nat.eqb j') js); [done |].
    by rewrite andb_false_r.
  - rewrite orb_false_r. destruct (i' =? i0) eqn:E; [| done].
    by apply Nat.eqb_eq in E as ->.
Qed.

Lemma existsb_seq k d : k ≤ d → existsb (Nat.eqb k) (seq 0 (S d)) = true.
Proof.
  intros H. apply existsb_exists. exists k. split; [| apply Nat.eqb_refl].
  apply in_seq. lia.
Qed.

Lemma fill_spec d (entry : nat → nat → Q) (M : Transformation.matrix Q) i j :
  i ≤ d → j ≤ d → Transformation.fill Q d entry M i j = entry i j.
Proof.
  intros Hi Hj. unfold Transformation.fill.
  by rewrite fill_rows, !existsb_seq.
Qed.

(** X11. In every dimension [d], whatever the storage held before, the
    matrix a translation is constructed with has the translation vector in
    its last row, ones on the diagonal and zeros elsewhere: the shortcut
    taken for [d = 3], which writes three entries only, gives the same matrix
    as the loop taken otherwise. *)
Theorem translation_matrix_entries d (from : nat → Q) (M0 : Transformation.matrix Q) i j :
  i ≤ d → j ≤ d →
  Transformation.translation Q zero one d from M0 i j =
  if (i =? d) && (j <? d) then from j else if i =? j then one else zero.
Proof.
  intros Hi Hj. unfold Transformation.translation, Transformation.updateMatrix.
  destruct (d =? 3) eqn:Hd.
  - apply Nat.eqb_eq in Hd as ->. unfold Transformation.assign, Transformation.affine.
    rewrite fill_spec by done.
    destruct i as [| [| [| [| i]]]]; [| | | | lia];
      destruct j as [| [| [| [| j]]]]; try lia; reflexivity.
  - by apply fill_spec.
Qed.
End TransformationProperties.

(** * The invariants on concrete diagrams *)

Section InvariantFacts.
Import Rational Examples.

(** X1, witness: the site (100, 100) inserted into [three_cells]. *)
Lemma insertion_keeps_areas_coloured_witness :
  ∃ fuel0 (r : voronoi),
    (∀ fuel, (fuel0 ≤ fuel)%nat → insert 1000 fuel three_cells (bare 100 100) = Some r) ∧
    Forall coloured (cells r).
Proof.
  apply (insertion_keeps_areas_coloured 1000 q_psub_shrinks three_cells (bare 100 100)).
  repeat (apply Forall_cons; split; [reflexivity |]). apply Forall_nil_2.
Defined.

(** X3, witness: the site (0, 0) inserted again into [first_cell]; the
    bisector of a site with itself is no line and clips nothing. *)
Lemma unsplit_located_cell_noop_witness :
  insert 1000 0 first_cell (bare 0 0) = Some first_cell.
Proof.
  apply (unsplit_located_cell_noop 1000 0 first_cell (bare 0 0) 0 origin_cell).
  - vm_compute. reflexivity.
  - reflexivity.
  - vm_compute. exact I.
Defined.

(** X4, witness: the site (50, 0) inserted again into [line_cells]. *)
Lemma stored_cells_kept_or_clipped_once_witness :
  ∃ fuel0 (r : voronoi),
    (∀ fuel, (fuel0 ≤ fuel)%nat → insert 1000 fuel line_cells (bare 50 0) = Some r) ∧
    ∀ j cj, cells line_cells !! j = Some cj →
      cells r !! j = Some cj ∨
      ∃ cj', retained (pt 50 0) cj = Some cj' ∧ cells r !! j = Some cj'.
Proof.
  apply (stored_cells_kept_or_clipped_once 1000 q_psub_shrinks line_cells (bare 50 0)).
Defined.

(** X5, witness: the site (100, 100) inserted into [three_cells]. *)
Lemma stored_cells_keep_their_sites_witness :
  ∃ fuel0 (r : voronoi),
    (∀ fuel, (fuel0 ≤ fuel)%nat → insert 1000 fuel three_cells (bare 100 100) = Some r) ∧
    ∀ j cj', (j < length (cells three_cells))%nat → cells r !! j = Some cj' →
      contains (area cj') (site cj') = true.
Proof.
  apply (stored_cells_keep_their_sites 1000 q_psub_shrinks three_cells (bare 100 100)).
  - intros P col v. reflexivity.
  - repeat (apply Forall_cons; split; [vm_compute; reflexivity |]). apply Forall_nil_2.
Defined.

(** X6, witness: the site (100, 100) inserted into [three_cells]. *)
Lemma insertion_keeps_sites_distinct_witness :
  ∃ fuel0 (r : voronoi),
    (∀ fuel, (fuel0 ≤ fuel)%nat → insert 1000 fuel three_cells (bare 100 100) = Some r) ∧
    distinct_sites (cells r) = true.
Proof.
  apply (insertion_keeps_sites_distinct 1000 q_psub_shrinks three_cells (bare 100 100)).
  vm_compute. reflexivity.
Defined.


(** X8, witness: the cascade for the site (100, 100) from [junction_state]. *)
Lemma new_cell_unites_ceded_sides_witness :
  ∃ fuel0 st',
    (∀ fuel, (fuel0 ≤ fuel)%nat → cascade fuel (pt 100 100) junction_state = Some st') ∧
    NoDup (cascade_marks fuel0 (pt 100 100) junction_state) ∧
    (∀ k, k ∈ cascade_marks fuel0 (pt 100 100) junction_state ↔
          k ∈ usedCells st' ∧ k ∉ usedCells junction_state) ∧
    newCell st' =
      fold_left punion
        (omap (λ k, st_cells junction_state !! k ≫= ceded (pt 100 100))
              (cascade_marks fuel0 (pt 100 100) junction_state))
        (newCell junction_state).
Proof.
  apply (new_cell_unites_ceded_sides q_psub_shrinks (pt 100 100) junction_state).
Defined.

(** X12, witness: the diagram of the sites (0, 0), (100, 0), (50, 0), (50, 0). *)
Lemma built_diagrams_are_well_formed_witness :
  ∃ fuel0 (r : voronoi),
    (∀ fuel, (fuel0 ≤ fuel)%nat →
       insert_all 1000 fuel empty_voronoi (line_sites ++ [bare 50 0]) = Some r) ∧
    distinct_sites (cells r) = true ∧
    Forall coloured (cells r) ∧
    ∀ x, x ∈ cells r →
      ∃ c, c ∈ line_sites ++ [bare 50 0] ∧ site x = site c ∧ colour x = colour c.
Proof.
  apply (built_diagrams_are_well_formed 1000 q_psub_shrinks (line_sites ++ [bare 50 0])).
Defined.
End InvariantFacts.

(** * The factory and the matrices on concrete inputs *)

(** A model that needs two model dimensions and three render dimensions and
    has no maximum, asked for depth 3 in 3 render dimensions from the depths
    4 and 4: the functor is run once, for (3, 3), and [set] returns [false]. *)
Lemma set_runs_once_returns_false :
  Factory.set (λ _ _, 2%nat) (λ _ _, 0%nat) (λ _ _, 3%nat) (λ _ _, 0%nat) 4 4 3 3 =
  Some (false, [(3%nat, 3%nat)]).
Proof. reflexivity. Qed.

(** X9, witness. *)
Lemma functor_runs_within_constraints_witness :
  Forall (λ p : nat * nat,
    (p.1 ≤ 4 ∧ p.2 ≤ 4 ∧ 2 ≤ p.1 ∧ (0 = 0 ∨ p.1 ≤ 0) ∧ 3 ≤ p.2 ∧ (0 = 0 ∨ p.2 ≤ 0) ∧
     (3 = 0 ∨ p.1 = 3) ∧ (3 = 0 ∨ p.2 = 3))%nat) [(3%nat, 3%nat)].
Proof.
  apply (functor_runs_within_constraints
           (λ _ _, 2%nat) (λ _ _, 0%nat) (λ _ _, 3%nat) (λ _ _, 0%nat) 4 4 3 3 false).
  reflexivity.
Defined.

(** X10, witness. *)
Lemma set_result_by_request_witness :
  ((3 = 0 → 3 = 0 → false = true) ∧
   (3 ≠ 0 → 3 ≠ 0 → false = false ∧ length [(3%nat, 3%nat)] ≤ 1))%nat.
Proof.
  apply (set_result_by_request
           (λ _ _, 2%nat) (λ _ _, 0%nat) (λ _ _, 3%nat) (λ _ _, 0%nat) 4 4 3 3).
  reflexivity.
Defined.

(** X11, witness: the translation by (10, 11, 12) in three dimensions has 11
    in row 3, column 1. *)
Lemma translation_matrix_entries_witness :
  Transformation.translation Z 0%Z 1%Z 3 (λ k, (10 + Z.of_nat k)%Z) (λ _ _, 7%Z) 3 1 = 11%Z.
Proof.
  apply (translation_matrix_entries Z 0%Z 1%Z 3 (λ k, (10 + Z.of_nat k)%Z) (λ _ _, 7%Z) 3 1);
    lia.
Defined.

(** X13, witness: a functor whose model depth may go up to the render depth,
    asked for depths 3 and 4 from the instance (5, 6). *)
Lemma request_within_constraints_served_once_witness :
  Factory.set (λ _ _, 2%nat) (λ _ e, e) (λ _ _, 3%nat) (λ _ _, 0%nat) 5 6 3 4 =
  Some (false, [(3%nat, 4%nat)]).
Proof.
  apply (request_within_constraints_served_once
           (λ _ _, 2%nat) (λ _ e, e) (λ _ _, 3%nat) (λ _ _, 0%nat) 3 4 5 6); lia.
Defined.
